(** * Battleship: a shallow embedding of the board, the strategy and the game

    The development follows the Python sources

      - [battleship/core.py]     ([CellState], [ShipType], [Orientation],
                                  [Ship], [Board]),
      - [battleship/strategy.py] ([Strategy], [RandomStrategy]),
      - [battleship/game.py]     ([Game]).

    Python integers are unbounded, hence [Z].  A position is a pair
    [(row, col)] of integers.  The [set] of hit positions of a ship is a
    [gset], the [dict] of shots of a board is a [gmap]; the histories of a
    strategy are Python lists and stay lists.  Methods that mutate [self]
    take the object and return the updated object next to their result.

    Ships are created by the caller and owned by the one board they are
    placed on, so a board carries its ships by value. *)

From Stdlib Require Import ZArith Lia.
From stdpp Require Import gmap strings list pretty.

Local Open Scope Z_scope.

(** ** core.py: enumerations *)

Inductive CellState : Type :=
  | UNKNOWN   (* not yet targeted *)
  | MISS      (* targeted, no ship *)
  | HIT.      (* targeted, hit a ship *)

#[global] Instance CellState_eq_dec : EqDecision CellState.
Proof. solve_decision. Defined.

(** [ShipType.SUBMARINE] has the same value as [ShipType.CRUISER]; only the
    value of a ship type is ever read by the program. *)
Inductive ShipType : Type :=
  | CARRIER | BATTLESHIP | CRUISER | SUBMARINE | DESTROYER.

Definition ShipType_value (t : ShipType) : Z :=
  match t with
  | CARRIER => 5
  | BATTLESHIP => 4
  | CRUISER => 3
  | SUBMARINE => 3
  | DESTROYER => 2
  end.

Inductive Orientation : Type :=
  | HORIZONTAL | VERTICAL.

(** Python's [x in l] on a list. *)
Definition in_list (p : Z * Z) (l : list (Z * Z)) : bool :=
  bool_decide (p ∈ l).

(** ** The module [random]

    The generator is a tape of naturals read at a cursor; every draw
    advances the cursor.  [None] stands for the exception the Python
    function raises ([IndexError] for [choice] on an empty sequence,
    [ValueError] for [randint] on an empty range). *)

Module Random.

Record t : Type := mk {
  tape : nat → nat;
  cursor : nat
}.

Definition next (rng : t) : nat * t :=
  (tape rng (cursor rng), mk (tape rng) (S (cursor rng))).

Definition choice {A : Type} (l : list A) (rng : t) : option (A * t) :=
  let '(k, rng') := next rng in
  x ← l !! (k mod length l)%nat;
  Some (x, rng').

Definition randint (a b : Z) (rng : t) : option (Z * t) :=
  if b <? a then None
  else
    let '(k, rng') := next rng in
    Some (a + Z.of_nat k mod (b - a + 1), rng').

End Random.

(** ** core.py: class Ship *)

Module Ship.

Record t : Type := mk {
  ship_type : ShipType;
  orientation : Orientation;
  start_position : Z * Z;
  hit_positions : gset (Z * Z)
}.

(** [Ship(ship_type, orientation, start_position)]: no hit yet. *)
Definition init (ty : ShipType) (o : Orientation) (start : Z * Z) : t :=
  mk ty o start ∅.

(** [self.size = ship_type.value], never assigned again. *)
Definition size (s : t) : Z := ShipType_value (ship_type s).

Definition is_sunk (s : t) : bool :=
  bool_decide (Z.of_nat (base.size (hit_positions s)) = size s).

Definition get_positions (s : t) : list (Z * Z) :=
  let '(row, col) := start_position s in
  (λ i, match orientation s with
        | HORIZONTAL => (row, col + i)
        | VERTICAL => (row + i, col)
        end) <$> seqZ 0 (size s).

Definition register_hit (s : t) (position : Z * Z) : bool * t :=
  if in_list position (get_positions s)
     && negb (bool_decide (position ∈ hit_positions s))
  then (true, mk (ship_type s) (orientation s) (start_position s)
                 ({[position]} ∪ hit_positions s))
  else (false, s).

End Ship.

(** ** core.py: class Board *)

Module Board.

Record t : Type := mk {
  size : Z;
  ships : list Ship.t;
  shots : gmap (Z * Z) CellState
}.

(** [Board(size)] *)
Definition init (n : Z) : t := mk n [] ∅.

(** The first loop of [place_ship]: every cell inside the grid. *)
Definition out_of_board (n : Z) (p : Z * Z) : bool :=
  let '(row, col) := p in
  (row <? 0) || (row >=? n) || (col <? 0) || (col >=? n).

(** [existing_positions.intersection(new_positions)] is non-empty. *)
Definition overlaps (existing new : Ship.t) : bool :=
  bool_decide
    (list_to_set (C := gset (Z * Z)) (Ship.get_positions existing)
     ∩ list_to_set (Ship.get_positions new) ≠ ∅).

Definition place_ship (b : t) (ship : Ship.t) : bool * t :=
  if existsb (out_of_board (size b)) (Ship.get_positions ship) then (false, b)
  else if existsb (λ existing_ship, overlaps existing_ship ship) (ships b)
  then (false, b)
  else (true, mk (size b) (ships b ++ [ship]) (shots b)).

(** The scan of [receive_shot]: the first ship occupying [position]
    registers the hit; [None] when the loop ends without finding one. *)
Fixpoint hit_first (l : list Ship.t) (position : Z * Z)
  : option (list Ship.t) :=
  match l with
  | [] => None
  | ship :: rest =>
      if in_list position (Ship.get_positions ship)
      then Some ((Ship.register_hit ship position).2 :: rest)
      else (λ rest', ship :: rest') <$> hit_first rest position
  end.

Definition receive_shot (b : t) (position : Z * Z) : CellState * t :=
  match shots b !! position with
  | Some st => (st, b)     (* shot already taken at this position *)
  | None =>
      match hit_first (ships b) position with
      | Some ships' => (HIT, mk (size b) ships' (<[position := HIT]> (shots b)))
      | None => (MISS, mk (size b) (ships b) (<[position := MISS]> (shots b)))
      end
  end.

Definition are_all_ships_sunk (b : t) : bool :=
  forallb Ship.is_sunk (ships b).

Fixpoint get_ship_at_position_in (l : list Ship.t) (position : Z * Z)
  : option Ship.t :=
  match l with
  | [] => None
  | ship :: rest =>
      if in_list position (Ship.get_positions ship) then Some ship
      else get_ship_at_position_in rest position
  end.

Definition get_ship_at_position (b : t) (position : Z * Z) : option Ship.t :=
  get_ship_at_position_in (ships b) position.

(** The inner loop of [random_placement]: up to [attempts] draws for one
    ship type; [false] is the [else] branch of the [for]. *)
Fixpoint try_place (attempts : nat) (ship_type : ShipType) (b : t)
    (rng : Random.t) : option (bool * t * Random.t) :=
  match attempts with
  | O => Some (false, b, rng)
  | S attempts' =>
      '(orientation, rng) ← Random.choice [HORIZONTAL; VERTICAL] rng;
      '(row, col, rng) ←
        match orientation with
        | HORIZONTAL =>
            '(row, rng) ← Random.randint 0 (size b - 1) rng;
            '(col, rng) ← Random.randint 0 (size b - ShipType_value ship_type) rng;
            Some (row, col, rng)
        | VERTICAL =>
            '(row, rng) ← Random.randint 0 (size b - ShipType_value ship_type) rng;
            '(col, rng) ← Random.randint 0 (size b - 1) rng;
            Some (row, col, rng)
        end;
      let ship := Ship.init ship_type orientation (row, col) in
      let '(placed, b') := place_ship b ship in
      if placed then Some (true, b', rng)
      else try_place attempts' ship_type b' rng
  end.

(** The outer loop of [random_placement]. *)
Fixpoint place_all (ship_types : list ShipType) (b : t) (rng : Random.t)
  : option (bool * t * Random.t) :=
  match ship_types with
  | [] => Some (true, b, rng)
  | ship_type :: rest =>
      '(placed, b', rng) ← try_place 100 ship_type b rng;
      if placed : bool then place_all rest b' rng
      else Some (false, b', rng)
  end.

Definition random_placement (b : t) (rng : Random.t)
  : option (bool * t * Random.t) :=
  place_all [CARRIER; BATTLESHIP; CRUISER; SUBMARINE; DESTROYER]
            (mk (size b) [] (shots b)) rng.

(** What [print_board] writes to the standard output.  The text of one
    cell: the recorded state wins over the ship. *)
Definition cell_text (b : t) (show_ships : bool) (position : Z * Z) : string :=
  match shots b !! position with
  | Some st => if bool_decide (st = HIT) then " X" else " O"
  | None =>
      if show_ships
         && existsb (λ ship, in_list position (Ship.get_positions ship)) (ships b)
      then " S"
      else " ·"
  end.

Definition newline : string := String (Ascii.ascii_of_nat 10) "".

Definition print_board (b : t) (show_ships : bool) : string :=
  "  "
  +:+ String.concat "" ((λ col, " " +:+ pretty col) <$> seqZ 0 (size b))
  +:+ newline
  +:+ String.concat ""
        ((λ row,
            pretty row +:+ " "
            +:+ String.concat ""
                  ((λ col, cell_text b show_ships (row, col)) <$> seqZ 0 (size b))
            +:+ newline) <$> seqZ 0 (size b)).

End Board.


(** ** strategy.py: class Strategy and class RandomStrategy *)

Module Strategy.

Record t : Type := mk {
  board_size : Z;
  shots : list (Z * Z);
  hits : list (Z * Z);
  misses : list (Z * Z)
}.

(** [Strategy(board_size)] *)
Definition init (n : Z) : t := mk n [] [] [].

Definition register_result (s : t) (position : Z * Z) (result : CellState) : t :=
  let shots' := shots s ++ [position] in
  match result with
  | HIT => mk (board_size s) shots' (hits s ++ [position]) (misses s)
  | MISS => mk (board_size s) shots' (hits s) (misses s ++ [position])
  | UNKNOWN => mk (board_size s) shots' (hits s) (misses s)
  end.

Definition get_available_positions (s : t) : list (Z * Z) :=
  flat_map (λ row,
    flat_map (λ col,
      if in_list (row, col) (shots s) then [] else [(row, col)])
    (seqZ 0 (board_size s)))
  (seqZ 0 (board_size s)).

Definition reset (s : t) : t := mk (board_size s) [] [] [].

End Strategy.

(** The abstract method of [Strategy]: an implementation picks the next
    position from the histories and the random source. *)
Class StrategyImpl : Type := {
  get_next_shot : Strategy.t → Random.t → option ((Z * Z) * Random.t)
}.

Module RandomStrategy.

Definition get_next_shot (s : Strategy.t) (rng : Random.t)
  : option ((Z * Z) * Random.t) :=
  let available := Strategy.get_available_positions s in
  match available with
  | [] => Some ((-1, -1), rng)   (* no available positions *)
  | _ => Random.choice available rng
  end.

End RandomStrategy.

#[global] Instance RandomStrategy_impl : StrategyImpl :=
  {| get_next_shot := RandomStrategy.get_next_shot |}.

(** ** game.py: class Game *)

(** The values stored in the dictionary returned by [play_turn]. *)
Inductive PyValue : Type :=
  | PyNone
  | PyBool (b : bool)
  | PyInt (z : Z)
  | PyStr (s : string)
  | PyPos (p : Z * Z)
  | PyCell (c : CellState).

Definition PyOptStr (o : option string) : PyValue :=
  match o with
  | None => PyNone
  | Some s => PyStr s
  end.

Module Game.

Record t : Type := mk {
  player_board : Board.t;
  ai_board : Board.t;
  board_size : Z;
  turn_count : Z;
  game_over : bool;
  winner : option string;
  ai_strategy : Strategy.t
}.

(** [Game(board_size, ai_strategy)]; without a strategy the game builds
    [RandomStrategy(board_size)]. *)
Definition init (n : Z) (strategy : option Strategy.t) : t :=
  mk (Board.init n) (Board.init n) n 0 false None
     (match strategy with
      | None => Strategy.init n
      | Some s => s
      end).

Definition setup_game (g : t) (rng : Random.t) : option (t * Random.t) :=
  '(_, pb, rng) ← Board.random_placement (player_board g) rng;
  '(_, ab, rng) ← Board.random_placement (ai_board g) rng;
  Some (mk pb ab (board_size g) (turn_count g) (game_over g) (winner g)
           (Strategy.reset (ai_strategy g)), rng).

Definition player_shoot (g : t) (position : Z * Z) : CellState * t :=
  if game_over g then (UNKNOWN, g)
  else
    let '(result, ab) := Board.receive_shot (ai_board g) position in
    if Board.are_all_ships_sunk ab
    then (result, mk (player_board g) ab (board_size g) (turn_count g)
                     true (Some "Player"%string) (ai_strategy g))
    else (result, mk (player_board g) ab (board_size g) (turn_count g)
                     (game_over g) (winner g) (ai_strategy g)).

Section WithStrategy.
Context `{StrategyImpl}.

Definition ai_shoot (g : t) (rng : Random.t)
  : option (((Z * Z) * CellState) * t * Random.t) :=
  if game_over g then Some (((-1, -1), UNKNOWN), g, rng)
  else
    '(position, rng) ← get_next_shot (ai_strategy g) rng;
    if bool_decide (position = (-1, -1))
    then Some (((-1, -1), UNKNOWN), g, rng)   (* no available positions *)
    else
      let '(result, pb) := Board.receive_shot (player_board g) position in
      let strategy := Strategy.register_result (ai_strategy g) position result in
      if Board.are_all_ships_sunk pb
      then Some ((position, result),
                 mk pb (ai_board g) (board_size g) (turn_count g)
                    true (Some "AI"%string) strategy, rng)
      else Some ((position, result),
                 mk pb (ai_board g) (board_size g) (turn_count g)
                    (game_over g) (winner g) strategy, rng).

Definition play_turn (g : t) (player_shot_position : Z * Z) (rng : Random.t)
  : option (gmap string PyValue * t * Random.t) :=
  if game_over g
  then Some (<["game_over" := PyBool true]>
             (<["winner" := PyOptStr (winner g)]> ∅), g, rng)
  else
    let g := mk (player_board g) (ai_board g) (board_size g)
                (turn_count g + 1) (game_over g) (winner g) (ai_strategy g) in
    let '(player_result, g) := player_shoot g player_shot_position in
    if game_over g
    then Some (<["player_shot" := PyPos player_shot_position]>
               (<["player_result" := PyCell player_result]>
               (<["game_over" := PyBool true]>
               (<["winner" := PyOptStr (winner g)]> ∅))), g, rng)
    else
      '((ai_position, ai_result), g, rng) ← ai_shoot g rng;
      Some (<["player_shot" := PyPos player_shot_position]>
            (<["player_result" := PyCell player_result]>
            (<["ai_shot" := PyPos ai_position]>
            (<["ai_result" := PyCell ai_result]>
            (<["game_over" := PyBool (game_over g)]>
            (<["winner" := PyOptStr (winner g)]>
            (<["turn_count" := PyInt (turn_count g)]> ∅)))))), g, rng).

End WithStrategy.

End Game.

(** ** Specification vocabulary *)

(** The cell [p] lies in [0, n) on both axes. *)
Definition in_board (n : Z) (p : Z * Z) : Prop :=
  0 ≤ p.1 < n ∧ 0 ≤ p.2 < n.

(** Some ship of the list occupies [p]. *)
Definition occupied (l : list Ship.t) (p : Z * Z) : Prop :=
  ∃ s, s ∈ l ∧ p ∈ Ship.get_positions s.

(** The ship [s] after [p] joined its hit set. *)
Definition with_hit (s : Ship.t) (p : Z * Z) : Ship.t :=
  Ship.mk (Ship.ship_type s) (Ship.orientation s) (Ship.start_position s)
          ({[p]} ∪ Ship.hit_positions s).

(** What [place_ship] validates: every cell of the ship inside the board,
    and no cell shared with a ship already on it. *)
Definition placeable (b : Board.t) (ship : Ship.t) : Prop :=
  (∀ p, p ∈ Ship.get_positions ship → in_board (Board.size b) p) ∧
  (∀ e, e ∈ Board.ships b →
     ∀ p, p ∈ Ship.get_positions e → p ∉ Ship.get_positions ship).

(** The canonical order of [random_placement]. *)
Definition standard_fleet : list ShipType :=
  [CARRIER; BATTLESHIP; CRUISER; SUBMARINE; DESTROYER].

(** The ships [l] are new ships of the types [tys], in that order. *)
Definition fresh_fleet (tys : list ShipType) (l : list Ship.t) : Prop :=
  Forall2 (λ ty s, ∃ o start, s = Ship.init ty o start) tys l.

(** The boards a caller obtains through the interface of [Board]: a new
    board, then any sequence of [place_ship], [receive_shot] and the
    [self.ships = []] that opens [random_placement]. *)
Inductive reachable : Board.t → Prop :=
  | reachable_init (n : Z) :
      reachable (Board.init n)
  | reachable_place_ship (b : Board.t) (ship : Ship.t) :
      reachable b → reachable (Board.place_ship b ship).2
  | reachable_receive_shot (b : Board.t) (p : Z * Z) :
      reachable b → reachable (Board.receive_shot b p).2
  | reachable_clear (b : Board.t) :
      reachable b → reachable (Board.mk (Board.size b) [] (Board.shots b)).

(** Every cell of every ship of the board lies inside the grid. *)
Definition ships_in_board (b : Board.t) : Prop :=
  ∀ s, s ∈ Board.ships b →
       ∀ q, q ∈ Ship.get_positions s → in_board (Board.size b) q.

(** The game once the player's shot at [p] is resolved and the turn is
    counted: the only fields that move are the AI's board, the turn counter
    and, when that board is fully sunk, the terminal flag and the winner. *)
Definition after_player_shot (g : Game.t) (p : Z * Z) : Game.t :=
  let ab := (Board.receive_shot (Game.ai_board g) p).2 in
  let sunk := Board.are_all_ships_sunk ab in
  Game.mk (Game.player_board g) ab (Game.board_size g) (Game.turn_count g + 1)
          (if sunk then true else Game.game_over g)
          (if sunk then Some "Player"%string else Game.winner g)
          (Game.ai_strategy g).

(** The game once the AI's shot at [p] is resolved and registered. *)
Definition after_ai_shot (g : Game.t) (p : Z * Z) : Game.t :=
  let '(result, pb) := Board.receive_shot (Game.player_board g) p in
  let sunk := Board.are_all_ships_sunk pb in
  Game.mk pb (Game.ai_board g) (Game.board_size g) (Game.turn_count g)
          (if sunk then true else Game.game_over g)
          (if sunk then Some "AI"%string else Game.winner g)
          (Strategy.register_result (Game.ai_strategy g) p result).

(** The three dictionaries [play_turn] returns. *)
Definition terminal_summary (g : Game.t) : gmap string PyValue :=
  <["game_over" := PyBool true]>
  (<["winner" := PyOptStr (Game.winner g)]> ∅).

Definition player_summary (p : Z * Z) (player_result : CellState) (g : Game.t)
  : gmap string PyValue :=
  <["player_shot" := PyPos p]>
  (<["player_result" := PyCell player_result]>
  (<["game_over" := PyBool true]>
  (<["winner" := PyOptStr (Game.winner g)]> ∅))).

Definition full_summary (p : Z * Z) (player_result : CellState)
    (ai_position : Z * Z) (ai_result : CellState) (g : Game.t)
  : gmap string PyValue :=
  <["player_shot" := PyPos p]>
  (<["player_result" := PyCell player_result]>
  (<["ai_shot" := PyPos ai_position]>
  (<["ai_result" := PyCell ai_result]>
  (<["game_over" := PyBool (Game.game_over g)]>
  (<["winner" := PyOptStr (Game.winner g)]>
  (<["turn_count" := PyInt (Game.turn_count g)]> ∅)))))).

(** ** Concrete boards, strategies and games *)

(** A tape for the examples. *)
Definition rng0 : Random.t := Random.mk (λ i, (7 * i + 3)%nat) 0.

Definition destroyer : Ship.t := Ship.init DESTROYER HORIZONTAL (0, 0).

(** A 10x10 board with one destroyer on (0,0) and (0,1). *)
Definition destroyer_board : Board.t :=
  (Board.place_ship (Board.init 10) destroyer).2.

(** A game where each side placed one destroyer. *)
Definition destroyer_game : Game.t :=
  Game.mk destroyer_board destroyer_board 10 0 false None (Strategy.init 10).

(** [destroyer_game] after [play_turn((0, 0))]: the player hit (0,0), the
    AI missed at (0,3). *)
Definition one_shot_left : Game.t :=
  Game.mk
    (Board.mk 10 [destroyer] {[ (0, 3) := MISS ]})
    (Board.mk 10 [Ship.mk DESTROYER HORIZONTAL (0, 0) {[ (0, 0) ]}]
              {[ (0, 0) := HIT ]})
    10 1 false None
    (Strategy.mk 10 [(0, 3)] [] [(0, 3)]).

(** [one_shot_left] after [play_turn((0, 1))]: the player won. *)
Definition player_won : Game.t :=
  Game.mk
    (Board.mk 10 [destroyer] {[ (0, 3) := MISS ]})
    (Board.mk 10 [Ship.mk DESTROYER HORIZONTAL (0, 0) {[ (0, 0); (0, 1) ]}]
              {[ (0, 0) := HIT; (0, 1) := HIT ]})
    10 2 true (Some "Player"%string)
    (Strategy.mk 10 [(0, 3)] [] [(0, 3)]).

(** A 1x1 strategy that shot its only cell and then registered the
    sentinel it was given, as a driver that registers every position
    [get_next_shot] returns does. *)
Definition sentinel_registered : Strategy.t :=
  Strategy.register_result
    (Strategy.register_result (Strategy.init 1) (0, 0) MISS) (-1, -1) MISS.

(** A 2x2 strategy whose history holds the four cells of its board. *)
Definition covered_strategy : Strategy.t :=
  Strategy.mk 2 [(0, 0); (0, 1); (1, 0); (1, 1)] [(0, 0); (0, 1)] [(1, 0); (1, 1)].

(** A 2x2 game that is not terminal while the strategy has no cell left:
    the strategy was not reset after an earlier game. *)
Definition stalled_game : Game.t :=
  let b := (Board.place_ship (Board.init 2) destroyer).2 in
  Game.mk b b 2 0 false None covered_strategy.

(** The fleet [random_placement] lays out on a new 10x10 board from
    [rng0]. *)
Definition fleet_board : Board.t :=
  Board.mk 10
    [Ship.init CARRIER VERTICAL (4, 7);
     Ship.init BATTLESHIP HORIZONTAL (1, 3);
     Ship.init CRUISER VERTICAL (4, 9);
     Ship.init SUBMARINE HORIZONTAL (3, 0);
     Ship.init DESTROYER VERTICAL (4, 1)]
    ∅.

(** ** benchmark.py: one game of [benchmark_strategy] *)

Module Benchmark.

(** The [while True] loop: a shot of the strategy, its result on the
    board, the result registered, until every ship is sunk.  The result is
    the turn count at the [break]; [None] when [fuel] iterations did not
    reach it (or when [get_next_shot] raised). *)
Fixpoint clear_board (fuel : nat) (board : Board.t) (strategy : Strategy.t)
    (rng : Random.t) (turn_count : Z)
  : option (Z * Board.t * Strategy.t * Random.t) :=
  match fuel with
  | O => None
  | S fuel' =>
      let turn_count := turn_count + 1 in
      '(shot, rng) ← RandomStrategy.get_next_shot strategy rng;
      let '(result, board) := Board.receive_shot board shot in
      let strategy := Strategy.register_result strategy shot result in
      if Board.are_all_ships_sunk board
      then Some (turn_count, board, strategy, rng)
      else clear_board fuel' board strategy rng turn_count
  end.

(** The body of the [for] loop up to the [break]: a new board, its random
    placement (the result is not looked at), the strategy reset, the game. *)
Definition benchmark_game (fuel : nat) (strategy : Strategy.t) (rng : Random.t)
  : option (Z * Board.t * Strategy.t * Random.t) :=
  '(_, board, rng) ← Board.random_placement (Board.init 10) rng;
  clear_board fuel board (Strategy.reset strategy) rng 0.

End Benchmark.

(** ** More specification vocabulary *)

(** The cell a ship occupies at offset [i] from its start. *)
Definition cell_at (s : Ship.t) (i : Z) : Z * Z :=
  match Ship.orientation s with
  | HORIZONTAL => ((Ship.start_position s).1, (Ship.start_position s).2 + i)
  | VERTICAL => ((Ship.start_position s).1 + i, (Ship.start_position s).2)
  end.

(** Every hit of the ship is on one of its cells. *)
Definition hits_on_ship (s : Ship.t) : Prop :=
  ∀ p, p ∈ Ship.hit_positions s → p ∈ Ship.get_positions s.

(** No cell belongs to two ships of the list. *)
Definition pairwise_disjoint (l : list Ship.t) : Prop :=
  ∀ (i j : nat) (s1 s2 : Ship.t),
    i ≠ j → l !! i = Some s1 → l !! j = Some s2 →
    ∀ p, p ∈ Ship.get_positions s1 → p ∉ Ship.get_positions s2.

(** The layout [place_ship] maintains: ships inside the grid, no overlap. *)
Definition valid_fleet (b : Board.t) : Prop :=
  ships_in_board b ∧ pairwise_disjoint (Board.ships b).

(** The hit sets follow the shots record: a cell counts as hit on a ship
    exactly when it is a cell of that ship and was shot. *)
Definition tracked (b : Board.t) : Prop :=
  ∀ s, s ∈ Board.ships b →
    ∀ p, p ∈ Ship.hit_positions s ↔
         p ∈ Ship.get_positions s ∧ is_Some (Board.shots b !! p).

(** The board after the shots [ps], in that order. *)
Definition shoot_all (b : Board.t) (ps : list (Z * Z)) : Board.t :=
  foldl (λ b p, (Board.receive_shot b p).2) b ps.

(** The cells of an [n]x[n] board, row by row. *)
Definition all_cells (n : Z) : list (Z * Z) :=
  flat_map (λ row, (λ col, (row, col)) <$> seqZ 0 n) (seqZ 0 n).

(** The winner is set exactly on terminal games, to one of the two sides. *)
Definition coherent (g : Game.t) : Prop :=
  match Game.winner g with
  | None => Game.game_over g = false
  | Some w => Game.game_over g = true ∧ (w = "Player"%string ∨ w = "AI"%string)
  end.

(** A shot history without repetition, every shot inside the board. *)
Definition history_ok (s : Strategy.t) : Prop :=
  NoDup (Strategy.shots s) ∧
  ∀ p, p ∈ Strategy.shots s → in_board (Strategy.board_size s) p.

(** The strategy has the size of the board and its shot history is the
    set of positions recorded on the board. *)
Definition synced (b : Board.t) (s : Strategy.t) : Prop :=
  Board.size b = Strategy.board_size s ∧
  ∀ q, is_Some (Board.shots b !! q) ↔ q ∈ Strategy.shots s.

(** The number of hits counted by the ships of a board, and the number of
    cells its ships occupy. *)
Definition total_hits (b : Board.t) : nat :=
  sum_list_with (λ s, size (Ship.hit_positions s)) (Board.ships b).

Definition fleet_cells (b : Board.t) : nat :=
  sum_list_with (λ s, Z.to_nat (Ship.size s)) (Board.ships b).

(** A 5x5 board on which [random_placement] fails: the tape of zeros draws
    the same ship position at every attempt, so the carrier takes row 0 and
    the battleship finds it occupied a hundred times. *)
Definition zero_rng : Random.t := Random.mk (λ _, 0%nat) 0.

Definition carrier_only_board : Board.t :=
  Board.mk 5 [Ship.init CARRIER HORIZONTAL (0, 0)] ∅.

(** * Theorems *)

(** ** Ships *)

Lemma in_list_true p l : in_list p l = true ↔ p ∈ l.
Proof. unfold in_list. apply bool_decide_eq_true. Qed.

Lemma in_list_false p l : in_list p l = false ↔ p ∉ l.
Proof. unfold in_list. apply bool_decide_eq_false. Qed.

Lemma get_positions_with_hit s p :
  Ship.get_positions (with_hit s p) = Ship.get_positions s.
Proof. reflexivity. Qed.

Lemma register_hit_occupied s p :
  p ∈ Ship.get_positions s → (Ship.register_hit s p).2 = with_hit s p.
Proof.
  intros Hp. unfold Ship.register_hit.
  apply in_list_true in Hp. rewrite Hp. simpl.
  destruct (decide (p ∈ Ship.hit_positions s)) as [Hhit|Hhit].
  - rewrite bool_decide_eq_true_2 by done. simpl.
    unfold with_hit. destruct s as [ty o st hs]; simpl in *. f_equal.
    symmetry. apply subseteq_union_1_L. by apply singleton_subseteq_l.
  - by rewrite bool_decide_eq_false_2 by done.
Qed.

(** ** The scan of [receive_shot] *)

Lemma hit_first_None l p : Board.hit_first l p = None ↔ ¬ occupied l p.
Proof.
  unfold occupied. induction l as [|s l IH]; simpl.
  - split; [|done]. intros _ (s & Hs & _). by apply elem_of_nil in Hs.
  - destruct (in_list p (Ship.get_positions s)) eqn:Hin.
    + apply in_list_true in Hin. split; [done|].
      intros Hno. exfalso. apply Hno. exists s. split; [left|done].
    + apply in_list_false in Hin. rewrite fmap_None, IH. split.
      * intros Hno (s' & Hs' & Hp). apply elem_of_cons in Hs' as [->|Hs']; [done|].
        apply Hno. eauto.
      * intros Hno (s' & Hs' & Hp). apply Hno. exists s'. split; [by right|done].
Qed.

Lemma hit_first_Some l p l' :
  Board.hit_first l p = Some l' →
  ∃ pre ship post,
    l = pre ++ ship :: post ∧
    (∀ s, s ∈ pre → p ∉ Ship.get_positions s) ∧
    p ∈ Ship.get_positions ship ∧
    l' = pre ++ with_hit ship p :: post.
Proof.
  revert l'. induction l as [|s l IH]; simpl; intros l' Hl'; [done|].
  destruct (in_list p (Ship.get_positions s)) eqn:Hin.
  - apply in_list_true in Hin. injection Hl' as <-.
    exists [], s, l. rewrite register_hit_occupied by done.
    split_and!; try done. intros s' Hs'. by apply elem_of_nil in Hs'.
  - apply in_list_false in Hin.
    apply fmap_Some in Hl' as (rest' & Hrest & ->).
    destruct (IH _ Hrest) as (pre & ship & post & -> & Hpre & Hship & ->).
    exists (s :: pre), ship, post. split_and!; try done.
    intros s' Hs'. apply elem_of_cons in Hs' as [->|Hs']; auto.
Qed.

Lemma receive_shot_unoccupied (b : Board.t) (p : Z * Z) :
  Board.shots b !! p = None →
  ¬ occupied (Board.ships b) p →
  Board.receive_shot b p =
    (MISS, Board.mk (Board.size b) (Board.ships b)
                    (<[p := MISS]> (Board.shots b))).
Proof.
  intros Hfresh Hno. unfold Board.receive_shot. rewrite Hfresh.
  by rewrite (proj2 (hit_first_None _ _) Hno).
Qed.

Lemma receive_shot_recorded (b : Board.t) (p : Z * Z) (st : CellState) :
  Board.shots b !! p = Some st → Board.receive_shot b p = (st, b).
Proof. intros Hp. unfold Board.receive_shot. by rewrite Hp. Qed.

Lemma receive_shot_occupied (b : Board.t) (p : Z * Z) :
  Board.shots b !! p = None →
  occupied (Board.ships b) p →
  ∃ pre ship post,
    Board.ships b = pre ++ ship :: post ∧
    (∀ s, s ∈ pre → p ∉ Ship.get_positions s) ∧
    p ∈ Ship.get_positions ship ∧
    Board.receive_shot b p =
      (HIT, Board.mk (Board.size b) (pre ++ with_hit ship p :: post)
                     (<[p := HIT]> (Board.shots b))).
Proof.
  intros Hfresh Hocc. unfold Board.receive_shot. rewrite Hfresh.
  destruct (Board.hit_first (Board.ships b) p) as [l'|] eqn:Hscan.
  - apply hit_first_Some in Hscan as (pre & ship & post & Hl & ? & ? & ->).
    by exists pre, ship, post.
  - by apply hit_first_None in Hscan.
Qed.

Lemma receive_shot_cases (b : Board.t) (p : Z * Z) :
  (∃ st, Board.shots b !! p = Some st ∧ Board.receive_shot b p = (st, b))
  ∨ (Board.shots b !! p = None ∧
     ∃ pre ship post,
       Board.ships b = pre ++ ship :: post ∧
       (∀ s, s ∈ pre → p ∉ Ship.get_positions s) ∧
       p ∈ Ship.get_positions ship ∧
       Board.receive_shot b p =
         (HIT, Board.mk (Board.size b) (pre ++ with_hit ship p :: post)
                        (<[p := HIT]> (Board.shots b))))
  ∨ (Board.shots b !! p = None ∧
     ¬ occupied (Board.ships b) p ∧
     Board.receive_shot b p =
       (MISS, Board.mk (Board.size b) (Board.ships b)
                       (<[p := MISS]> (Board.shots b)))).
Proof.
  destruct (Board.shots b !! p) as [st|] eqn:Hp.
  - left. exists st. split; [done|]. by apply receive_shot_recorded.
  - right. destruct (decide (Board.hit_first (Board.ships b) p = None)) as [Hn|Hs].
    + right. apply hit_first_None in Hn. split; [done|]. split; [done|].
      by apply receive_shot_unoccupied.
    + left. split; [done|]. apply receive_shot_occupied; [done|].
      destruct (Board.hit_first (Board.ships b) p) eqn:Hscan;
        [|done].
      apply hit_first_Some in Hscan as (pre & ship & post & Hl & _ & Hp' & _).
      exists ship. split; [|done]. rewrite Hl. apply elem_of_app. right. left.
Qed.

Lemma receive_shot_is_recorded (b : Board.t) (p : Z * Z) :
  Board.shots (Board.receive_shot b p).2 !! p
    = Some (Board.receive_shot b p).1.
Proof.
  destruct (receive_shot_cases b p)
    as [(st' & Hp & ->)|[(Hp & pre & ship & post & _ & _ & _ & ->)|(Hp & _ & ->)]];
    simpl; [done|..]; by rewrite lookup_insert_eq.
Qed.

(** C2: on a position absent from the shots record, [receive_shot] either
    finds a ship occupying it, adds the position to the hit set of the first
    such ship, records [HIT] and returns [HIT]; or no ship occupies it, and
    it records [MISS] and returns [MISS], the ships untouched. *)
Theorem receive_shot_fresh (b : Board.t) (p : Z * Z) :
  Board.shots b !! p = None →
  (occupied (Board.ships b) p ∧
   ∃ pre ship post,
     Board.ships b = pre ++ ship :: post ∧
     (∀ s, s ∈ pre → p ∉ Ship.get_positions s) ∧
     p ∈ Ship.get_positions ship ∧
     Board.receive_shot b p =
       (HIT, Board.mk (Board.size b) (pre ++ with_hit ship p :: post)
                      (<[p := HIT]> (Board.shots b))))
  ∨
  (¬ occupied (Board.ships b) p ∧
   Board.receive_shot b p =
     (MISS, Board.mk (Board.size b) (Board.ships b)
                     (<[p := MISS]> (Board.shots b)))).
Proof.
  intros Hfresh. unfold Board.receive_shot. rewrite Hfresh.
  destruct (Board.hit_first (Board.ships b) p) as [l'|] eqn:Hscan.
  - left.
    apply hit_first_Some in Hscan as (pre & ship & post & Hl & ? & ? & ->).
    split; [|by exists pre, ship, post].
    exists ship. split; [|done].
    rewrite Hl. apply elem_of_app. right. left.
  - right. split; [by apply hit_first_None|done].
Qed.

(** C1: a second [receive_shot] at the same position returns the state the
    first call returned and leaves the board (every ship's hit set and the
    shots mapping) as the first call left it. *)
Theorem receive_shot_idempotent (b : Board.t) (p : Z * Z) :
  let '(r1, b1) := Board.receive_shot b p in
  let '(r2, b2) := Board.receive_shot b1 p in
  r2 = r1 ∧ b2 = b1.
Proof.
  unfold Board.receive_shot.
  destruct (Board.shots b !! p) as [st|] eqn:Hp.
  - rewrite Hp. done.
  - destruct (Board.hit_first (Board.ships b) p); simpl;
      rewrite lookup_insert_eq; done.
Qed.

(** ** Placement *)

Lemma out_of_board_false n p : Board.out_of_board n p = false ↔ in_board n p.
Proof.
  destruct p as [row col]. unfold Board.out_of_board, in_board. simpl.
  rewrite !orb_false_iff, !Z.ltb_ge, !Z.geb_leb, !Z.leb_gt. lia.
Qed.

Lemma existsb_out_of_board_false n l :
  existsb (Board.out_of_board n) l = false ↔ ∀ p, p ∈ l → in_board n p.
Proof.
  induction l as [|q l IH]; simpl.
  - split; [|done]. intros _ p Hp. by apply elem_of_nil in Hp.
  - rewrite orb_false_iff, out_of_board_false, IH. split.
    + intros [Hq Hl] p Hp. apply elem_of_cons in Hp as [->|Hp]; auto.
    + intros Hall. split; [apply Hall; left|].
      intros p Hp. apply Hall. by right.
Qed.

Lemma overlaps_false existing new :
  Board.overlaps existing new = false ↔
  ∀ p, p ∈ Ship.get_positions existing → p ∉ Ship.get_positions new.
Proof.
  unfold Board.overlaps. rewrite bool_decide_eq_false. split.
  - intros Hempty p He Hn. apply Hempty. intros Heq.
    apply (not_elem_of_empty (C := gset (Z * Z)) p). rewrite <- Heq.
    apply elem_of_intersection. by rewrite !elem_of_list_to_set.
  - intros Hdisj Hne. apply Hne. apply leibniz_equiv, elem_of_equiv_empty.
    intros p Hp. apply elem_of_intersection in Hp as [He Hn].
    rewrite elem_of_list_to_set in He, Hn. by apply (Hdisj p).
Qed.

Lemma existsb_overlaps_false l new :
  existsb (λ existing, Board.overlaps existing new) l = false ↔
  ∀ e, e ∈ l → ∀ p, p ∈ Ship.get_positions e → p ∉ Ship.get_positions new.
Proof.
  induction l as [|s l IH]; simpl.
  - split; [|done]. intros _ e He. by apply elem_of_nil in He.
  - rewrite orb_false_iff, overlaps_false, IH. split.
    + intros [Hs Hl] e He. apply elem_of_cons in He as [->|He]; [done|].
      by apply Hl.
    + intros Hall. split; [apply Hall; left|].
      intros e He. apply Hall. by right.
Qed.

Lemma place_ship_cases (b : Board.t) (ship : Ship.t) :
  Board.place_ship b ship =
    (true, Board.mk (Board.size b) (Board.ships b ++ [ship]) (Board.shots b))
  ∨ Board.place_ship b ship = (false, b).
Proof.
  unfold Board.place_ship.
  destruct (existsb _ (Ship.get_positions ship)); [by right|].
  destruct (existsb _ (Board.ships b)); [by right|by left].
Qed.

Lemma place_ship_true (b b' : Board.t) (ship : Ship.t) :
  Board.place_ship b ship = (true, b') →
  (∀ p, p ∈ Ship.get_positions ship → in_board (Board.size b) p) ∧
  b' = Board.mk (Board.size b) (Board.ships b ++ [ship]) (Board.shots b).
Proof.
  unfold Board.place_ship.
  destruct (existsb _ (Ship.get_positions ship)) eqn:Hbounds; [done|].
  destruct (existsb _ (Board.ships b)); [done|].
  intros [= <-]. split; [|done].
  by apply existsb_out_of_board_false.
Qed.

(** C5: [place_ship] succeeds, appending the ship, exactly when every cell of
    the ship lies in [0, size) on both axes and meets no cell of a ship
    already placed; otherwise it fails and returns the board as it was. *)
Theorem place_ship_spec (b : Board.t) (ship : Ship.t) :
  (placeable b ship ∧
   Board.place_ship b ship =
     (true, Board.mk (Board.size b) (Board.ships b ++ [ship]) (Board.shots b)))
  ∨
  (¬ placeable b ship ∧ Board.place_ship b ship = (false, b)).
Proof.
  unfold Board.place_ship, placeable.
  destruct (existsb (Board.out_of_board (Board.size b)) (Ship.get_positions ship))
    eqn:Hbounds.
  - right. split; [|done]. intros [Hin _].
    apply (proj2 (existsb_out_of_board_false _ _)) in Hin. congruence.
  - pose proof (proj1 (existsb_out_of_board_false _ _) Hbounds) as Hin.
    destruct (existsb (λ e, Board.overlaps e ship) (Board.ships b)) eqn:Hover.
    + right. split; [|done]. intros [_ Hdisj].
      apply (proj2 (existsb_overlaps_false _ _)) in Hdisj. congruence.
    + left. pose proof (proj1 (existsb_overlaps_false _ _) Hover). done.
Qed.

(** ** The random source *)

Lemma choice_nonempty {A : Type} (l : list A) (rng : Random.t) :
  l ≠ [] → ∃ x rng', Random.choice l rng = Some (x, rng') ∧ x ∈ l.
Proof.
  intros Hl. unfold Random.choice, Random.next.
  assert (Hlt : (Random.tape rng (Random.cursor rng) mod length l < length l)%nat).
  { apply Nat.mod_upper_bound. destruct l; [done|simpl; lia]. }
  apply lookup_lt_is_Some_2 in Hlt as [x Hx].
  rewrite Hx. simpl. eexists _, _. split; [done|].
  by eapply list_elem_of_lookup_2.
Qed.

(** Every element of the sequence is drawn by some tape. *)
Lemma choice_any {A : Type} (l : list A) (x : A) (c : nat) :
  x ∈ l → ∃ tape, Random.choice l (Random.mk tape c) = Some (x, Random.mk tape (S c)).
Proof.
  intros Hx. apply list_elem_of_lookup_1 in Hx as [i Hi].
  exists (λ _, i). unfold Random.choice, Random.next. simpl.
  rewrite Nat.mod_small by (by eapply lookup_lt_Some). by rewrite Hi.
Qed.

(** ** The strategy *)

Lemma elem_of_get_available_positions (s : Strategy.t) (q : Z * Z) :
  q ∈ Strategy.get_available_positions s ↔
  in_board (Strategy.board_size s) q ∧ q ∉ Strategy.shots s.
Proof.
  unfold Strategy.get_available_positions, in_board.
  rewrite list_elem_of_In, in_flat_map. split.
  - intros (row & Hrow & Hq). apply in_flat_map in Hq as (col & Hcol & Hq).
    apply list_elem_of_In, elem_of_seqZ in Hrow, Hcol.
    destruct (in_list (row, col) (Strategy.shots s)) eqn:Hshot; [done|].
    apply in_list_false in Hshot.
    destruct Hq as [<-|[]]. simpl. split; [lia|done].
  - destruct q as [row col]. simpl. intros [[Hrow Hcol] Hshot].
    exists row. split; [apply list_elem_of_In, elem_of_seqZ; lia|].
    apply in_flat_map. exists col.
    split; [apply list_elem_of_In, elem_of_seqZ; lia|].
    apply in_list_false in Hshot. rewrite Hshot. by left.
Qed.

(** The history covers the board exactly when nothing is available. *)
Lemma get_available_positions_nil (s : Strategy.t) :
  Strategy.get_available_positions s = [] ↔
  ∀ q, in_board (Strategy.board_size s) q → q ∈ Strategy.shots s.
Proof.
  split.
  - intros Hnil q Hq.
    destruct (decide (q ∈ Strategy.shots s)) as [|Hno]; [done|]. exfalso.
    assert (Hin : q ∈ Strategy.get_available_positions s)
      by by apply elem_of_get_available_positions.
    rewrite Hnil in Hin. by apply elem_of_nil in Hin.
  - intros Hall. destruct (Strategy.get_available_positions s) as [|q l] eqn:Hav; [done|].
    assert (Hin : q ∈ Strategy.get_available_positions s) by (rewrite Hav; left).
    apply elem_of_get_available_positions in Hin as [Hb Hno].
    exfalso. by apply Hno, Hall.
Qed.

Lemma sentinel_not_in_board (n : Z) : ¬ in_board n (-1, -1).
Proof. unfold in_board. simpl. lia. Qed.

Lemma get_next_shot_exhausted (s : Strategy.t) (rng : Random.t) :
  Strategy.get_available_positions s = [] →
  RandomStrategy.get_next_shot s rng = Some ((-1, -1), rng).
Proof. intros Hnil. unfold RandomStrategy.get_next_shot. by rewrite Hnil. Qed.

Lemma get_next_shot_available (s : Strategy.t) (rng : Random.t) :
  Strategy.get_available_positions s ≠ [] →
  ∃ p rng', RandomStrategy.get_next_shot s rng = Some (p, rng') ∧
            p ∈ Strategy.get_available_positions s.
Proof.
  intros Hne. unfold RandomStrategy.get_next_shot.
  destruct (choice_nonempty _ rng Hne) as (p & rng' & Hc & Hp).
  exists p, rng'. split; [|done].
  by destruct (Strategy.get_available_positions s).
Qed.

Lemma register_result_shots (s : Strategy.t) (p : Z * Z) (r : CellState) :
  Strategy.shots (Strategy.register_result s p r) = Strategy.shots s ++ [p] ∧
  Strategy.board_size (Strategy.register_result s p r) = Strategy.board_size s.
Proof. by destruct r. Qed.

Lemma get_next_shot_returns (s : Strategy.t) (rng : Random.t) :
  ∃ p rng', RandomStrategy.get_next_shot s rng = Some (p, rng').
Proof.
  destruct (decide (Strategy.get_available_positions s = [])) as [Hnil|Hne].
  - exists (-1, -1), rng. by apply get_next_shot_exhausted.
  - destruct (get_next_shot_available s rng Hne) as (p & rng' & Hshot & _).
    by exists p, rng'.
Qed.

(** C6 (amended): [get_next_shot] of the random strategy always returns; it
    returns the sentinel [(-1, -1)] exactly when [get_available_positions]
    is empty, and any other position it returns is one of
    [get_available_positions]: inside the board and absent from the shot
    history. *)
Theorem random_get_next_shot_spec (s : Strategy.t) (rng : Random.t) :
  ∃ p rng',
    RandomStrategy.get_next_shot s rng = Some (p, rng') ∧
    (p = (-1, -1) ↔ Strategy.get_available_positions s = []) ∧
    (p ≠ (-1, -1) →
       p ∈ Strategy.get_available_positions s ∧
       in_board (Strategy.board_size s) p ∧
       p ∉ Strategy.shots s).
Proof.
  destruct (decide (Strategy.get_available_positions s = [])) as [Hnil|Hne].
  - exists (-1, -1), rng. split; [by apply get_next_shot_exhausted|].
    split; [done|]. intros Hp. by exfalso.
  - destruct (get_next_shot_available s rng Hne) as (p & rng' & Hshot & Hp).
    exists p, rng'. split; [done|].
    pose proof (proj1 (elem_of_get_available_positions s p) Hp) as [Hb Hno].
    split; [|done]. split; [|done].
    intros ->. exfalso. by eapply sentinel_not_in_board.
Qed.

(** ** Sunk ships *)

Lemma is_sunk_true (s : Ship.t) :
  Ship.is_sunk s = true ↔
  Z.of_nat (size (Ship.hit_positions s)) = Ship.size s.
Proof. unfold Ship.is_sunk. apply bool_decide_eq_true. Qed.

Lemma is_sunk_init ty o start : Ship.is_sunk (Ship.init ty o start) = false.
Proof.
  apply bool_decide_eq_false. unfold Ship.init, Ship.size.
  cbn [Ship.hit_positions Ship.ship_type]. rewrite size_empty.
  destruct ty; simpl; lia.
Qed.

Lemma are_all_ships_sunk_true (b : Board.t) :
  Board.are_all_ships_sunk b = true ↔
  ∀ s, s ∈ Board.ships b →
       Z.of_nat (size (Ship.hit_positions s)) = Ship.size s.
Proof.
  unfold Board.are_all_ships_sunk. rewrite forallb_forall. split.
  - intros Hall s Hs. apply is_sunk_true, Hall. by apply list_elem_of_In.
  - intros Hall s Hs. apply is_sunk_true, Hall. by apply list_elem_of_In.
Qed.

(** ** Random placement *)

Lemma try_place_true attempts ty b rng b' rng' :
  Board.try_place attempts ty b rng = Some (true, b', rng') →
  ∃ o start,
    b' = Board.mk (Board.size b) (Board.ships b ++ [Ship.init ty o start])
                  (Board.shots b).
Proof.
  revert rng. induction attempts as [|n IH]; intros rng; simpl; [done|].
  destruct (Random.choice [HORIZONTAL; VERTICAL] rng) as [[o rng1]|]; [|done].
  simpl.
  destruct (match o with
            | HORIZONTAL => _
            | VERTICAL => _
            end) as [[[row col] rng2]|]; [|done].
  simpl.
  destruct (place_ship_cases b (Ship.init ty o (row, col))) as [-> | ->].
  - intros [= <- <-]. by exists o, (row, col).
  - apply IH.
Qed.

Lemma place_all_cons ty tys b rng :
  Board.place_all (ty :: tys) b rng =
  match Board.try_place 100 ty b rng with
  | Some (true, b', rng') => Board.place_all tys b' rng'
  | Some (false, b', rng') => Some (false, b', rng')
  | None => None
  end.
Proof.
  cbn [Board.place_all].
  by destruct (Board.try_place 100 ty b rng) as [[[[] ?] ?]|].
Qed.

Lemma place_all_true tys b rng b' rng' :
  Board.place_all tys b rng = Some (true, b', rng') →
  ∃ new,
    fresh_fleet tys new ∧
    b' = Board.mk (Board.size b) (Board.ships b ++ new) (Board.shots b).
Proof.
  revert b rng. induction tys as [|ty tys IH]; intros b rng.
  - intros [= <- <-]. exists []. split; [constructor|].
    rewrite app_nil_r. by destruct b.
  - rewrite place_all_cons.
    destruct (Board.try_place 100 ty b rng) as [[[[] b1] rng1]|] eqn:Htry;
      [|discriminate..].
    apply try_place_true in Htry as (o & start & ->).
    intros Hrest. apply IH in Hrest as (new & Hnew & ->).
    cbn [Board.size Board.ships Board.shots].
    exists (Ship.init ty o start :: new). split.
    + constructor; [|done]. by exists o, start.
    + by rewrite <- app_assoc.
Qed.

Lemma random_placement_true b rng b' rng' :
  Board.random_placement b rng = Some (true, b', rng') →
  fresh_fleet standard_fleet (Board.ships b').
Proof.
  unfold Board.random_placement. intros Hp.
  apply place_all_true in Hp as (new & Hnew & ->). done.
Qed.

Lemma fresh_fleet_not_sunk ty tys l b :
  fresh_fleet (ty :: tys) l → Board.ships b = l →
  Board.are_all_ships_sunk b = false.
Proof.
  intros Hfleet Hb. unfold Board.are_all_ships_sunk. rewrite Hb.
  inversion Hfleet as [|? s ? l' (o & start & ->) _]; subst. simpl.
  by rewrite is_sunk_init.
Qed.

(** C8: [is_sunk] is true exactly when the number of distinct hit cells of
    the ship equals its size; [are_all_ships_sunk] is true exactly when that
    number equals the size for every placed ship; and on the fleet of the
    five standard ships just laid out by a successful [random_placement]
    it is false. *)
Theorem are_all_ships_sunk_spec :
  (∀ s : Ship.t,
     Ship.is_sunk s = true ↔
     Z.of_nat (size (Ship.hit_positions s)) = Ship.size s) ∧
  (∀ b : Board.t,
     Board.are_all_ships_sunk b = true ↔
     ∀ s, s ∈ Board.ships b →
          Z.of_nat (size (Ship.hit_positions s)) = Ship.size s) ∧
  (∀ b : Board.t,
     Board.are_all_ships_sunk b = true ↔
     ∀ s, s ∈ Board.ships b → Ship.is_sunk s = true) ∧
  (∀ (b : Board.t) (rng : Random.t) (b' : Board.t) (rng' : Random.t),
     Board.random_placement b rng = Some (true, b', rng') →
     fresh_fleet standard_fleet (Board.ships b') ∧
     Board.are_all_ships_sunk b' = false).
Proof.
  split_and!.
  - apply is_sunk_true.
  - apply are_all_ships_sunk_true.
  - intros b. rewrite are_all_ships_sunk_true. split.
    + intros Hall s Hs. by apply is_sunk_true, Hall.
    + intros Hall s Hs. by apply is_sunk_true, Hall.
  - intros b rng b' rng' Hplace.
    pose proof (random_placement_true _ _ _ _ Hplace) as Hfleet.
    split; [done|]. by eapply fresh_fleet_not_sunk.
Qed.

(** ** Boards built through the interface *)

Lemma try_place_reachable attempts ty b rng ok b' rng' :
  reachable b →
  Board.try_place attempts ty b rng = Some (ok, b', rng') →
  reachable b'.
Proof.
  revert b rng. induction attempts as [|n IH]; intros b rng Hb; simpl.
  - by intros [= <- <- <-].
  - destruct (Random.choice [HORIZONTAL; VERTICAL] rng) as [[o rng1]|]; [|done].
    simpl.
    destruct (match o with
              | HORIZONTAL => _
              | VERTICAL => _
              end) as [[[row col] rng2]|]; [|done].
    simpl.
    pose proof (reachable_place_ship b (Ship.init ty o (row, col)) Hb) as Hnext.
    destruct (Board.place_ship b (Ship.init ty o (row, col))) as [[] b1].
    + by intros [= <- <- <-].
    + by apply IH.
Qed.

Lemma place_all_reachable tys b rng ok b' rng' :
  reachable b →
  Board.place_all tys b rng = Some (ok, b', rng') →
  reachable b'.
Proof.
  revert b rng. induction tys as [|ty tys IH]; intros b rng Hb.
  - by intros [= <- <- <-].
  - rewrite place_all_cons.
    destruct (Board.try_place 100 ty b rng) as [[[[] b1] rng1]|] eqn:Htry;
      [| |discriminate].
    + apply IH. by eapply try_place_reachable.
    + intros [= <- <- <-]. by eapply try_place_reachable.
Qed.

Lemma random_placement_reachable b rng ok b' rng' :
  reachable b →
  Board.random_placement b rng = Some (ok, b', rng') →
  reachable b'.
Proof.
  intros Hb. unfold Board.random_placement.
  apply place_all_reachable. by apply reachable_clear.
Qed.

Lemma place_ship_in_board b ship :
  ships_in_board b → ships_in_board (Board.place_ship b ship).2.
Proof.
  intros Hb.
  destruct (Board.place_ship b ship) as [[] b'] eqn:Hplace.
  2:{ destruct (place_ship_cases b ship) as [Hc|Hc];
        rewrite Hplace in Hc; [discriminate|]. by injection Hc as ->. }
  apply place_ship_true in Hplace as [Hin ->].
  intros s Hs q Hq. simpl in *.
  apply elem_of_app in Hs as [Hs|Hs]; [by eapply Hb|].
  apply list_elem_of_singleton in Hs as ->. by apply Hin.
Qed.

Lemma receive_shot_in_board b p :
  ships_in_board b → ships_in_board (Board.receive_shot b p).2.
Proof.
  intros Hb. unfold Board.receive_shot.
  destruct (Board.shots b !! p); [done|].
  destruct (Board.hit_first (Board.ships b) p) as [l'|] eqn:Hscan; [|done].
  apply hit_first_Some in Hscan as (pre & ship & post & Hl & _ & _ & ->).
  intros s Hs q Hq. simpl in *.
  assert (Hold : ∃ s0, s0 ∈ Board.ships b ∧
                       Ship.get_positions s0 = Ship.get_positions s).
  { rewrite Hl. apply elem_of_app in Hs as [Hs|Hs].
    - exists s. split; [|done]. apply elem_of_app. by left.
    - apply elem_of_cons in Hs as [->|Hs].
      + exists ship. split; [|done]. apply elem_of_app. right. left.
      + exists s. split; [|done]. apply elem_of_app. right. by right. }
  destruct Hold as (s0 & Hs0 & Hpos). rewrite <- Hpos in Hq. by eapply Hb.
Qed.

Lemma reachable_in_board b : reachable b → ships_in_board b.
Proof.
  induction 1 as [n|b ship _ IH|b p _ IH|b _ IH].
  - intros s Hs. by apply elem_of_nil in Hs.
  - by apply place_ship_in_board.
  - by apply receive_shot_in_board.
  - intros s Hs. by apply elem_of_nil in Hs.
Qed.

(** C10: [receive_shot] checks no bounds.  On a board built through the
    interface no ship occupies a cell outside the grid, so a shot at a
    position outside [0, size) x [0, size) that was not shot before, the
    sentinel [(-1, -1)] included, records [MISS] and returns [MISS]. *)
Theorem receive_shot_out_of_board (b : Board.t) (p : Z * Z) :
  reachable b →
  ¬ in_board (Board.size b) p →
  Board.shots b !! p = None →
  Board.receive_shot b p =
    (MISS, Board.mk (Board.size b) (Board.ships b)
                    (<[p := MISS]> (Board.shots b))).
Proof.
  intros Hb Hout Hfresh.
  apply receive_shot_unoccupied; [done|].
  intros (s & Hs & Hp). apply Hout. by eapply reachable_in_board.
Qed.

(** ** The game, for any strategy *)

Section AnyStrategy.
Context `{StrategyImpl}.

Lemma ai_shoot_terminal (g : Game.t) (rng : Random.t) :
  Game.game_over g = true →
  Game.ai_shoot g rng = Some (((-1, -1), UNKNOWN), g, rng).
Proof. intros Hover. unfold Game.ai_shoot. by rewrite Hover. Qed.

Lemma ai_shoot_no_position (g : Game.t) (rng rng' : Random.t) :
  Game.game_over g = false →
  get_next_shot (Game.ai_strategy g) rng = Some ((-1, -1), rng') →
  Game.ai_shoot g rng = Some (((-1, -1), UNKNOWN), g, rng').
Proof.
  intros Hover Hshot. unfold Game.ai_shoot. rewrite Hover, Hshot. done.
Qed.

Lemma ai_shoot_position (g : Game.t) (rng rng' : Random.t) (p : Z * Z) :
  Game.game_over g = false →
  get_next_shot (Game.ai_strategy g) rng = Some (p, rng') →
  p ≠ (-1, -1) →
  Game.ai_shoot g rng =
    Some ((p, (Board.receive_shot (Game.player_board g) p).1),
          after_ai_shot g p, rng').
Proof.
  intros Hover Hshot Hp. unfold Game.ai_shoot, after_ai_shot.
  rewrite Hover, Hshot. simpl.
  rewrite bool_decide_eq_false_2 by done.
  destruct (Board.receive_shot (Game.player_board g) p) as [result pb].
  simpl. by destruct (Board.are_all_ships_sunk pb).
Qed.

Lemma play_turn_terminal (g : Game.t) (p : Z * Z) (rng : Random.t) :
  Game.game_over g = true →
  Game.play_turn g p rng = Some (terminal_summary g, g, rng).
Proof. intros Hover. unfold Game.play_turn. by rewrite Hover. Qed.

Lemma play_turn_player_wins (g : Game.t) (p : Z * Z) (rng : Random.t) :
  Game.game_over g = false →
  Board.are_all_ships_sunk (Board.receive_shot (Game.ai_board g) p).2 = true →
  Game.play_turn g p rng =
    Some (player_summary p (Board.receive_shot (Game.ai_board g) p).1
                         (after_player_shot g p),
          after_player_shot g p, rng).
Proof.
  intros Hover Hsunk.
  unfold Game.play_turn, Game.player_shoot, after_player_shot.
  rewrite Hover. cbn [Game.game_over Game.ai_board].
  destruct (Board.receive_shot (Game.ai_board g) p) as [result ab].
  cbn [fst snd] in *. rewrite Hsunk. reflexivity.
Qed.

Lemma play_turn_continues (g : Game.t) (p : Z * Z) (rng : Random.t) :
  Game.game_over g = false →
  Board.are_all_ships_sunk (Board.receive_shot (Game.ai_board g) p).2 = false →
  Game.play_turn g p rng =
    '(ai_position, ai_result, g', rng') ← Game.ai_shoot (after_player_shot g p) rng;
    Some (full_summary p (Board.receive_shot (Game.ai_board g) p).1
                       ai_position ai_result g', g', rng').
Proof.
  intros Hover Hsunk.
  unfold Game.play_turn, Game.player_shoot, after_player_shot.
  rewrite Hover. cbn [Game.game_over Game.ai_board].
  destruct (Board.receive_shot (Game.ai_board g) p) as [result ab].
  cbn [fst snd] in *. rewrite Hsunk. reflexivity.
Qed.

End AnyStrategy.

(** ** The game with the random strategy *)

Lemma player_shoot_running (g : Game.t) (p : Z * Z) :
  Game.game_over g = false →
  Game.player_shoot g p =
    ((Board.receive_shot (Game.ai_board g) p).1,
     let ab := (Board.receive_shot (Game.ai_board g) p).2 in
     let sunk := Board.are_all_ships_sunk ab in
     Game.mk (Game.player_board g) ab (Game.board_size g) (Game.turn_count g)
             sunk (if sunk then Some "Player"%string else Game.winner g)
             (Game.ai_strategy g)).
Proof.
  intros Hover. unfold Game.player_shoot. rewrite Hover.
  destruct (Board.receive_shot (Game.ai_board g) p) as [result ab].
  cbn [fst snd]. by destruct (Board.are_all_ships_sunk ab).
Qed.

Lemma ai_shoot_returns (g : Game.t) (rng : Random.t) :
  ∃ ai_position ai_result g' rng',
    Game.ai_shoot g rng = Some ((ai_position, ai_result), g', rng') ∧
    Game.turn_count g' = Game.turn_count g.
Proof.
  destruct (Game.game_over g) eqn:Hover.
  - rewrite ai_shoot_terminal by done. by eexists _, _, _, _.
  - destruct (get_next_shot_returns (Game.ai_strategy g) rng)
      as (q & rng' & Hshot).
    destruct (decide (q = (-1, -1))) as [->|Hq].
    + erewrite ai_shoot_no_position by done. by eexists _, _, _, _.
    + erewrite ai_shoot_position by done. eexists _, _, _, _. split; [done|].
      unfold after_ai_shot.
      by destruct (Board.receive_shot (Game.player_board g) q).
Qed.

Lemma ai_shoot_cases (g : Game.t) (rng : Random.t) :
  (∃ rng', Game.ai_shoot g rng = Some (((-1, -1), UNKNOWN), g, rng'))
  ∨ (∃ p rng',
       Game.game_over g = false ∧
       p ∈ Strategy.get_available_positions (Game.ai_strategy g) ∧
       Game.ai_shoot g rng =
         Some ((p, (Board.receive_shot (Game.player_board g) p).1),
               after_ai_shot g p, rng')).
Proof.
  destruct (Game.game_over g) eqn:Hover.
  - left. exists rng. by apply ai_shoot_terminal.
  - destruct (decide (Strategy.get_available_positions (Game.ai_strategy g) = []))
      as [Hnil|Hne].
    + left. exists rng. apply ai_shoot_no_position; [done|].
      by apply get_next_shot_exhausted.
    + right. destruct (get_next_shot_available _ rng Hne) as (p & rng' & Hshot & Hp).
      exists p, rng'. split; [done|]. split; [done|].
      apply ai_shoot_position; [done..|].
      intros ->. apply elem_of_get_available_positions in Hp as [Hb _].
      by eapply sentinel_not_in_board.
Qed.

Lemma play_turn_cases (g : Game.t) (p : Z * Z) (rng : Random.t) :
  (Game.game_over g = true ∧
   Game.play_turn g p rng = Some (terminal_summary g, g, rng))
  ∨ (Game.game_over g = false ∧
     Game.game_over (after_player_shot g p) = true ∧
     Game.play_turn g p rng =
       Some (player_summary p (Board.receive_shot (Game.ai_board g) p).1
                            (after_player_shot g p),
             after_player_shot g p, rng))
  ∨ (Game.game_over g = false ∧
     Game.game_over (after_player_shot g p) = false ∧
     ∃ ai_position ai_result g' rng',
       Game.ai_shoot (after_player_shot g p) rng
         = Some ((ai_position, ai_result), g', rng') ∧
       Game.play_turn g p rng =
         Some (full_summary p (Board.receive_shot (Game.ai_board g) p).1
                            ai_position ai_result g', g', rng')).
Proof.
  destruct (Game.game_over g) eqn:Hover.
  - left. split; [done|]. by apply play_turn_terminal.
  - right.
    destruct (Board.are_all_ships_sunk (Board.receive_shot (Game.ai_board g) p).2)
      eqn:Hsunk.
    + left. split; [done|]. split.
      * unfold after_player_shot. cbn [Game.game_over]. by rewrite Hsunk.
      * by apply play_turn_player_wins.
    + right. split; [done|]. split.
      * unfold after_player_shot. cbn [Game.game_over]. by rewrite Hsunk.
      * rewrite (play_turn_continues g p rng Hover Hsunk).
        destruct (ai_shoot_returns (after_player_shot g p) rng)
          as (ai_position & ai_result & g' & rng' & Hai & _).
        rewrite Hai. by exists ai_position, ai_result, g', rng'.
Qed.

(** C7: [ai_shoot] returns the sentinel [((-1, -1), UNKNOWN)] and leaves the
    whole game (the player's board and the histories of the strategy
    included) as it was when the game is terminal, and when the shot history
    of the strategy covers every cell of its board.  Otherwise the strategy
    picks an available position; the shot is applied to the player's board,
    which records its result; the position is appended to the shot history
    of the strategy and to its hits or its misses according to that result;
    and the game is terminal afterwards, with winner "AI", exactly when all
    ships of the player's board are then sunk. *)
Theorem ai_shoot_spec (g : Game.t) (rng : Random.t) :
  (Game.game_over g = true →
     Game.ai_shoot g rng = Some (((-1, -1), UNKNOWN), g, rng)) ∧
  (Game.game_over g = false →
   (∀ q, in_board (Strategy.board_size (Game.ai_strategy g)) q →
         q ∈ Strategy.shots (Game.ai_strategy g)) →
     RandomStrategy.get_next_shot (Game.ai_strategy g) rng
       = Some ((-1, -1), rng) ∧
     Game.ai_shoot g rng = Some (((-1, -1), UNKNOWN), g, rng)) ∧
  (Game.game_over g = false →
   Strategy.get_available_positions (Game.ai_strategy g) ≠ [] →
     ∃ p rng' result pb g',
       RandomStrategy.get_next_shot (Game.ai_strategy g) rng = Some (p, rng') ∧
       p ∈ Strategy.get_available_positions (Game.ai_strategy g) ∧
       Board.receive_shot (Game.player_board g) p = (result, pb) ∧
       Board.shots pb !! p = Some result ∧
       (Board.shots (Game.player_board g) !! p = None →
        (result = HIT ∧ occupied (Board.ships (Game.player_board g)) p) ∨
        (result = MISS ∧ ¬ occupied (Board.ships (Game.player_board g)) p)) ∧
       Game.ai_shoot g rng = Some ((p, result), g', rng') ∧
       Game.player_board g' = pb ∧
       Game.ai_strategy g'
         = Strategy.register_result (Game.ai_strategy g) p result ∧
       Strategy.board_size (Game.ai_strategy g')
         = Strategy.board_size (Game.ai_strategy g) ∧
       Strategy.shots (Game.ai_strategy g')
         = Strategy.shots (Game.ai_strategy g) ++ [p] ∧
       Strategy.hits (Game.ai_strategy g')
         = (if bool_decide (result = HIT)
            then Strategy.hits (Game.ai_strategy g) ++ [p]
            else Strategy.hits (Game.ai_strategy g)) ∧
       Strategy.misses (Game.ai_strategy g')
         = (if bool_decide (result = MISS)
            then Strategy.misses (Game.ai_strategy g) ++ [p]
            else Strategy.misses (Game.ai_strategy g)) ∧
       Game.ai_board g' = Game.ai_board g ∧
       Game.turn_count g' = Game.turn_count g ∧
       (Game.game_over g' = true ↔ Board.are_all_ships_sunk pb = true) ∧
       Game.winner g'
         = (if Board.are_all_ships_sunk pb then Some "AI"%string
            else Game.winner g)).
Proof.
  split_and!.
  - apply ai_shoot_terminal.
  - intros Hover Hcovered.
    apply get_available_positions_nil in Hcovered.
    pose proof (get_next_shot_exhausted _ rng Hcovered) as Hshot.
    split; [done|]. by apply ai_shoot_no_position.
  - intros Hover Hne.
    destruct (get_next_shot_available _ rng Hne) as (p & rng' & Hshot & Hp).
    assert (Hsent : p ≠ (-1, -1)).
    { intros ->. apply elem_of_get_available_positions in Hp as [Hb _].
      by eapply sentinel_not_in_board. }
    pose proof (ai_shoot_position g rng rng' p Hover Hshot Hsent) as Hai.
    pose proof (receive_shot_is_recorded (Game.player_board g) p) as Hrec.
    assert (Hfresh : Board.shots (Game.player_board g) !! p = None →
              ((Board.receive_shot (Game.player_board g) p).1 = HIT
               ∧ occupied (Board.ships (Game.player_board g)) p) ∨
              ((Board.receive_shot (Game.player_board g) p).1 = MISS
               ∧ ¬ occupied (Board.ships (Game.player_board g)) p)).
    { intros Hnone.
      destruct (receive_shot_cases (Game.player_board g) p)
        as [(st & Hst & _)|[(_ & pre & ship & post & Hl & _ & Hship & ->)
                           |(_ & Hno & ->)]]; [congruence| |by right].
      left. split; [done|]. exists ship. split; [|done].
      rewrite Hl. apply elem_of_app. right. left. }
    unfold after_ai_shot in Hai.
    destruct (Board.receive_shot (Game.player_board g) p) as [result pb]
      eqn:Hrecv.
    cbn [fst snd] in Hai, Hrec, Hfresh.
    eexists p, rng', result, pb, _. split_and!; try done.
    + by destruct result.
    + by destruct result.
    + by destruct result.
    + by destruct result.
    + cbn [Game.game_over]. rewrite Hover.
      by destruct (Board.are_all_ships_sunk pb).
Qed.

(** C4: called on a terminal game, [play_turn] returns at once the
    dictionary of the terminal flag and the winner, and the game (both
    boards, the turn counter, the strategy) and the random source are as
    before.  When the player's shot ends the game, [play_turn] takes no AI
    shot: the player's board, the strategy and the random source are as
    before, the dictionary has no AI entry, and the winner is "Player". *)
Theorem play_turn_no_ai_shot (g : Game.t) (p : Z * Z) (rng : Random.t) :
  (Game.game_over g = true →
     Game.play_turn g p rng = Some (terminal_summary g, g, rng) ∧
     ∀ k, k ≠ "game_over"%string → k ≠ "winner"%string →
          terminal_summary g !! k = None) ∧
  (Game.game_over g = false →
   Game.game_over (Game.player_shoot g p).2 = true →
     ∃ summary g',
       Game.play_turn g p rng = Some (summary, g', rng) ∧
       Game.player_board g' = Game.player_board g ∧
       Game.ai_strategy g' = Game.ai_strategy g ∧
       Game.ai_board g' = (Board.receive_shot (Game.ai_board g) p).2 ∧
       Game.game_over g' = true ∧
       Game.winner g' = Some "Player"%string ∧
       summary !! "winner" = Some (PyStr "Player") ∧
       summary !! "game_over" = Some (PyBool true) ∧
       summary !! "ai_shot" = None ∧
       summary !! "ai_result" = None).
Proof.
  split.
  - intros Hover. split; [by apply play_turn_terminal|].
    intros k Hk1 Hk2. unfold terminal_summary.
    rewrite !lookup_insert_ne by done. apply lookup_empty.
  - intros Hover Hended.
    rewrite player_shoot_running in Hended by done. cbn in Hended.
    rewrite (play_turn_player_wins g p rng Hover Hended).
    eexists _, _. split; [done|].
    unfold after_player_shot, player_summary.
    cbn [Game.player_board Game.ai_strategy Game.ai_board Game.game_over
         Game.winner].
    rewrite Hended. split_and!; done.
Qed.

(** C3 (amended): on a game that is not terminal, [play_turn] returns and
    the turn counter grows by exactly one.  The dictionary always holds the
    player's shot position and the result of that shot on the AI's board,
    the terminal flag and the winner as they are after the call.  When the
    player's shot does not end the game it also holds the position and the
    result of the one shot [ai_shoot] then took (the sentinel and [UNKNOWN]
    when the strategy had no position left, otherwise an available position
    and the result of that shot on the player's board) and the turn count;
    when the player's shot ends the game it holds none of these three, and
    no AI shot was taken. *)
Theorem play_turn_spec (g : Game.t) (p : Z * Z) (rng : Random.t) :
  Game.game_over g = false →
  ∃ summary g' rng',
    Game.play_turn g p rng = Some (summary, g', rng') ∧
    Game.turn_count g' = Game.turn_count g + 1 ∧
    Game.ai_board g' = (Board.receive_shot (Game.ai_board g) p).2 ∧
    summary !! "player_shot" = Some (PyPos p) ∧
    summary !! "player_result"
      = Some (PyCell (Board.receive_shot (Game.ai_board g) p).1) ∧
    summary !! "game_over" = Some (PyBool (Game.game_over g')) ∧
    summary !! "winner" = Some (PyOptStr (Game.winner g')) ∧
    if Game.game_over (Game.player_shoot g p).2
    then summary !! "ai_shot" = None ∧
         summary !! "ai_result" = None ∧
         summary !! "turn_count" = None ∧
         Game.player_board g' = Game.player_board g ∧
         Game.ai_strategy g' = Game.ai_strategy g
    else ∃ ai_position ai_result,
         Game.ai_shoot (after_player_shot g p) rng
           = Some ((ai_position, ai_result), g', rng') ∧
         summary !! "ai_shot" = Some (PyPos ai_position) ∧
         summary !! "ai_result" = Some (PyCell ai_result) ∧
         summary !! "turn_count" = Some (PyInt (Game.turn_count g')) ∧
         ((ai_position = (-1, -1) ∧ ai_result = UNKNOWN ∧
           Strategy.get_available_positions (Game.ai_strategy g) = [] ∧
           Game.player_board g' = Game.player_board g ∧
           Game.ai_strategy g' = Game.ai_strategy g)
          ∨
          (ai_position ∈ Strategy.get_available_positions (Game.ai_strategy g) ∧
           ai_result
             = (Board.receive_shot (Game.player_board g) ai_position).1 ∧
           Game.player_board g'
             = (Board.receive_shot (Game.player_board g) ai_position).2 ∧
           Strategy.shots (Game.ai_strategy g')
             = Strategy.shots (Game.ai_strategy g) ++ [ai_position])).
Proof.
  intros Hover. rewrite player_shoot_running by done. cbn [snd Game.game_over].
  destruct (play_turn_cases g p rng)
    as [[Hc _]|[(_ & Hended & Hturn)|(_ & Hgoes & q & r & g' & rng' & Hai & Hturn)]];
    [congruence|..].
  - assert (Hsunk : Board.are_all_ships_sunk
                      (Board.receive_shot (Game.ai_board g) p).2 = true).
    { revert Hended. unfold after_player_shot. cbn [Game.game_over].
      destruct (Board.are_all_ships_sunk _); [done|congruence]. }
    rewrite Hsunk. eexists _, _, _. split; [exact Hturn|].
    unfold after_player_shot, player_summary.
    cbn [Game.turn_count Game.game_over Game.winner Game.ai_board
         Game.player_board Game.ai_strategy].
    rewrite Hsunk. split_and!; done.
  - assert (Hsunk : Board.are_all_ships_sunk
                      (Board.receive_shot (Game.ai_board g) p).2 = false).
    { revert Hgoes. unfold after_player_shot. cbn [Game.game_over].
      destruct (Board.are_all_ships_sunk _); [done|]. by rewrite Hover. }
    rewrite Hsunk. exists (full_summary p (Board.receive_shot (Game.ai_board g) p).1
                             q r g'), g', rng'.
    split; [exact Hturn|].
    assert (Hshape :
      Game.turn_count g' = Game.turn_count g + 1 ∧
      Game.ai_board g' = (Board.receive_shot (Game.ai_board g) p).2 ∧
      ((q = (-1, -1) ∧ r = UNKNOWN ∧
        Strategy.get_available_positions (Game.ai_strategy g) = [] ∧
        Game.player_board g' = Game.player_board g ∧
        Game.ai_strategy g' = Game.ai_strategy g)
       ∨
       (q ∈ Strategy.get_available_positions (Game.ai_strategy g) ∧
        r = (Board.receive_shot (Game.player_board g) q).1 ∧
        Game.player_board g' = (Board.receive_shot (Game.player_board g) q).2 ∧
        Strategy.shots (Game.ai_strategy g')
          = Strategy.shots (Game.ai_strategy g) ++ [q]))).
    { destruct (decide (Strategy.get_available_positions (Game.ai_strategy g) = []))
        as [Hnil|Hne].
      - rewrite (ai_shoot_no_position (after_player_shot g p) rng rng) in Hai;
          [|done|by apply get_next_shot_exhausted].
        injection Hai as <- <- <- <-. split; [done|]. split; [done|].
        left. done.
      - destruct (get_next_shot_available (Game.ai_strategy g) rng Hne)
          as (q' & r' & Hshot & Hq').
        rewrite (ai_shoot_position (after_player_shot g p) rng r' q') in Hai;
          [|done|done|].
        2:{ intros ->. apply elem_of_get_available_positions in Hq' as [Hb _].
            by eapply sentinel_not_in_board. }
        injection Hai as <- <- <- <-.
        unfold after_ai_shot, after_player_shot.
        cbn [Game.player_board Game.ai_strategy].
        destruct (Board.receive_shot (Game.player_board g) q') as [res pb].
        cbn [Game.turn_count Game.ai_board Game.player_board Game.ai_strategy
             fst snd].
        split; [done|]. split; [done|]. right. split_and!; try done.
        by destruct (register_result_shots (Game.ai_strategy g) q' res). }
    destruct Hshape as (Hcount & Hboard & Hshot).
    unfold full_summary. split_and!; try done.
    exists q, r. split_and!; done.
Qed.

(** C9: with no ship on a board [are_all_ships_sunk] is true.  A new game
    has no ship on the AI's board and is not terminal; on such a game the
    first [player_shoot], and likewise the first [play_turn], ends the game
    with winner "Player" whatever the position. *)
Theorem empty_fleet_player_wins :
  (∀ b : Board.t, Board.ships b = [] → Board.are_all_ships_sunk b = true) ∧
  (∀ (n : Z) (strategy : option Strategy.t),
     Game.game_over (Game.init n strategy) = false ∧
     Board.ships (Game.ai_board (Game.init n strategy)) = []) ∧
  (∀ (g : Game.t) (p : Z * Z),
     Game.game_over g = false →
     Board.ships (Game.ai_board g) = [] →
     Game.game_over (Game.player_shoot g p).2 = true ∧
     Game.winner (Game.player_shoot g p).2 = Some "Player"%string) ∧
  (∀ (g : Game.t) (p : Z * Z) (rng : Random.t),
     Game.game_over g = false →
     Board.ships (Game.ai_board g) = [] →
     ∃ summary g',
       Game.play_turn g p rng = Some (summary, g', rng) ∧
       Game.game_over g' = true ∧
       Game.winner g' = Some "Player"%string).
Proof.
  assert (Hempty : ∀ b, Board.ships b = [] → Board.are_all_ships_sunk b = true).
  { intros b Hb. unfold Board.are_all_ships_sunk. by rewrite Hb. }
  assert (Hshot : ∀ b p, Board.ships b = [] →
            Board.are_all_ships_sunk (Board.receive_shot b p).2 = true).
  { intros b p Hb. apply Hempty. unfold Board.receive_shot.
    destruct (Board.shots b !! p); [done|]. by rewrite Hb. }
  split_and!.
  - done.
  - done.
  - intros g p Hover Hb. rewrite player_shoot_running by done.
    cbn. by rewrite Hshot.
  - intros g p rng Hover Hb.
    rewrite (play_turn_player_wins g p rng Hover (Hshot _ p Hb)).
    eexists _, _. split; [done|]. unfold after_player_shot.
    cbn [Game.game_over Game.winner]. by rewrite Hshot.
Qed.

(** ** The statements on concrete boards, strategies and games *)

Lemma destroyer_game_first_turn :
  Game.play_turn destroyer_game (0, 0) rng0 =
    Some (full_summary (0, 0) HIT (0, 3) MISS one_shot_left,
          one_shot_left, Random.mk (Random.tape rng0) 1).
Proof. vm_compute. reflexivity. Qed.

Lemma one_shot_left_last_turn :
  Game.play_turn one_shot_left (0, 1) rng0 =
    Some (player_summary (0, 1) HIT player_won, player_won, rng0).
Proof. vm_compute. reflexivity. Qed.

Lemma reachable_destroyer_board : reachable destroyer_board.
Proof. apply reachable_place_ship, reachable_init. Qed.

(** The scenario of the destroyer: two hits sink it, and with it the fleet. *)
Lemma destroyer_scenario :
  Ship.get_positions destroyer = [(0, 0); (0, 1)] ∧
  (Board.receive_shot destroyer_board (0, 0)).1 = HIT ∧
  Board.are_all_ships_sunk (Board.receive_shot destroyer_board (0, 0)).2 = false ∧
  (Board.receive_shot (Board.receive_shot destroyer_board (0, 0)).2 (0, 1)).1 = HIT ∧
  Board.are_all_ships_sunk
    (Board.receive_shot (Board.receive_shot destroyer_board (0, 0)).2 (0, 1)).2
    = true.
Proof. vm_compute. done. Qed.

(** Witness of C2: the first shot at (0,0) on [destroyer_board]. *)
Lemma receive_shot_fresh_witness :
  Board.shots destroyer_board !! (0, 0) = None ∧
  ((occupied (Board.ships destroyer_board) (0, 0) ∧
    ∃ pre ship post,
      Board.ships destroyer_board = pre ++ ship :: post ∧
      (∀ s, s ∈ pre → (0, 0) ∉ Ship.get_positions s) ∧
      (0, 0) ∈ Ship.get_positions ship ∧
      Board.receive_shot destroyer_board (0, 0) =
        (HIT, Board.mk (Board.size destroyer_board)
                       (pre ++ with_hit ship (0, 0) :: post)
                       (<[(0, 0) := HIT]> (Board.shots destroyer_board))))
   ∨
   (¬ occupied (Board.ships destroyer_board) (0, 0) ∧
    Board.receive_shot destroyer_board (0, 0) =
      (MISS, Board.mk (Board.size destroyer_board) (Board.ships destroyer_board)
                      (<[(0, 0) := MISS]> (Board.shots destroyer_board))))).
Proof.
  split; [reflexivity|].
  apply (receive_shot_fresh destroyer_board (0, 0)). reflexivity.
Defined.

(** Counterexample to C3 as stated: the player's shot at (0,1) sinks the
    last ship of the AI, and the dictionary [play_turn] returns has no AI
    shot, no AI result and no turn count. *)
Lemma play_turn_summary_without_ai_shot :
  Game.game_over one_shot_left = false ∧
  ∃ summary g' rng',
    Game.play_turn one_shot_left (0, 1) rng0 = Some (summary, g', rng') ∧
    summary !! "ai_shot" = None ∧
    summary !! "ai_result" = None ∧
    summary !! "turn_count" = None.
Proof.
  split; [reflexivity|].
  eexists _, _, _. split; [apply one_shot_left_last_turn|].
  vm_compute. done.
Qed.

(** Witness of C3 (amended): the first turn of [destroyer_game]. *)
Lemma play_turn_spec_witness :
  Game.game_over destroyer_game = false ∧
  ∃ summary g' rng',
    Game.play_turn destroyer_game (0, 0) rng0 = Some (summary, g', rng') ∧
    Game.turn_count g' = Game.turn_count destroyer_game + 1 ∧
    Game.ai_board g' = (Board.receive_shot (Game.ai_board destroyer_game) (0, 0)).2 ∧
    summary !! "player_shot" = Some (PyPos (0, 0)) ∧
    summary !! "player_result"
      = Some (PyCell (Board.receive_shot (Game.ai_board destroyer_game) (0, 0)).1) ∧
    summary !! "game_over" = Some (PyBool (Game.game_over g')) ∧
    summary !! "winner" = Some (PyOptStr (Game.winner g')) ∧
    if Game.game_over (Game.player_shoot destroyer_game (0, 0)).2
    then summary !! "ai_shot" = None ∧
         summary !! "ai_result" = None ∧
         summary !! "turn_count" = None ∧
         Game.player_board g' = Game.player_board destroyer_game ∧
         Game.ai_strategy g' = Game.ai_strategy destroyer_game
    else ∃ ai_position ai_result,
         Game.ai_shoot (after_player_shot destroyer_game (0, 0)) rng0
           = Some ((ai_position, ai_result), g', rng') ∧
         summary !! "ai_shot" = Some (PyPos ai_position) ∧
         summary !! "ai_result" = Some (PyCell ai_result) ∧
         summary !! "turn_count" = Some (PyInt (Game.turn_count g')) ∧
         ((ai_position = (-1, -1) ∧ ai_result = UNKNOWN ∧
           Strategy.get_available_positions (Game.ai_strategy destroyer_game) = [] ∧
           Game.player_board g' = Game.player_board destroyer_game ∧
           Game.ai_strategy g' = Game.ai_strategy destroyer_game)
          ∨
          (ai_position ∈ Strategy.get_available_positions (Game.ai_strategy destroyer_game) ∧
           ai_result
             = (Board.receive_shot (Game.player_board destroyer_game) ai_position).1 ∧
           Game.player_board g'
             = (Board.receive_shot (Game.player_board destroyer_game) ai_position).2 ∧
           Strategy.shots (Game.ai_strategy g')
             = Strategy.shots (Game.ai_strategy destroyer_game) ++ [ai_position])).
Proof.
  split; [reflexivity|].
  apply (play_turn_spec destroyer_game (0, 0) rng0). reflexivity.
Defined.

(** Witness of C4: [play_turn] on the terminal game [player_won], and the
    turn of [one_shot_left] in which the player wins. *)
Lemma play_turn_no_ai_shot_witness :
  (Game.game_over player_won = true ∧
   Game.play_turn player_won (5, 5) rng0
     = Some (terminal_summary player_won, player_won, rng0)) ∧
  (Game.game_over one_shot_left = false ∧
   Game.game_over (Game.player_shoot one_shot_left (0, 1)).2 = true ∧
   ∃ summary g',
     Game.play_turn one_shot_left (0, 1) rng0 = Some (summary, g', rng0) ∧
     Game.player_board g' = Game.player_board one_shot_left ∧
     Game.ai_strategy g' = Game.ai_strategy one_shot_left ∧
     Game.winner g' = Some "Player"%string ∧
     summary !! "ai_shot" = None).
Proof.
  split.
  - split; [reflexivity|].
    apply (proj1 (play_turn_no_ai_shot player_won (5, 5) rng0)). reflexivity.
  - split; [reflexivity|]. split; [vm_compute; reflexivity|].
    destruct (proj2 (play_turn_no_ai_shot one_shot_left (0, 1) rng0)
                eq_refl ltac:(vm_compute; reflexivity))
      as (summary & g' & Hturn & Hpb & Hstrat & _ & _ & Hwin & _ & _ & Hai & _).
    by exists summary, g'.
Defined.

(** Counterexample to C6 as stated: the history of [sentinel_registered]
    covers its board and holds the sentinel, and [get_next_shot] returns
    the sentinel, a position of the history. *)
Lemma get_next_shot_repeats_sentinel :
  RandomStrategy.get_next_shot sentinel_registered rng0
    = Some ((-1, -1), rng0) ∧
  (-1, -1) ∈ Strategy.shots sentinel_registered.
Proof. split; [reflexivity|]. simpl. right. left. Qed.

(** Witness of C6 (amended): the first shot of a new 10x10 strategy. *)
Lemma random_get_next_shot_spec_witness :
  ∃ p rng',
    RandomStrategy.get_next_shot (Strategy.init 10) rng0 = Some (p, rng') ∧
    p ≠ (-1, -1) ∧
    p ∈ Strategy.get_available_positions (Strategy.init 10) ∧
    in_board (Strategy.board_size (Strategy.init 10)) p ∧
    p ∉ Strategy.shots (Strategy.init 10).
Proof.
  destruct (random_get_next_shot_spec (Strategy.init 10) rng0)
    as (p & rng' & Hshot & _ & Hav).
  exists p, rng'. split; [done|].
  assert (Hp : p ≠ (-1, -1)).
  { vm_compute in Hshot. intros ->. discriminate Hshot. }
  split; [done|]. by apply Hav.
Defined.

(** Witness of C7: [ai_shoot] on the terminal game [player_won], on
    [stalled_game] whose strategy has no cell left, and on
    [destroyer_game]. *)
Lemma ai_shoot_spec_witness :
  (Game.game_over player_won = true ∧
   Game.ai_shoot player_won rng0
     = Some (((-1, -1), UNKNOWN), player_won, rng0)) ∧
  (Game.game_over stalled_game = false ∧
   Strategy.get_available_positions (Game.ai_strategy stalled_game) = [] ∧
   Game.ai_shoot stalled_game rng0
     = Some (((-1, -1), UNKNOWN), stalled_game, rng0)) ∧
  (Game.game_over destroyer_game = false ∧
   Strategy.get_available_positions (Game.ai_strategy destroyer_game) ≠ [] ∧
   ∃ p rng' result g',
     p ∈ Strategy.get_available_positions (Game.ai_strategy destroyer_game) ∧
     Game.ai_shoot destroyer_game rng0 = Some ((p, result), g', rng') ∧
     Board.shots (Game.player_board g') !! p = Some result ∧
     Strategy.shots (Game.ai_strategy g')
       = Strategy.shots (Game.ai_strategy destroyer_game) ++ [p] ∧
     Game.ai_strategy g'
       = Strategy.register_result (Game.ai_strategy destroyer_game) p result).
Proof.
  split; [|split].
  - split; [reflexivity|].
    apply (proj1 (ai_shoot_spec player_won rng0)). reflexivity.
  - split; [reflexivity|]. split; [reflexivity|].
    apply (proj1 (proj2 (ai_shoot_spec stalled_game rng0))); [reflexivity|].
    apply get_available_positions_nil. reflexivity.
  - split; [reflexivity|]. split; [vm_compute; discriminate|].
    destruct (proj2 (proj2 (ai_shoot_spec destroyer_game rng0))
                eq_refl ltac:(vm_compute; discriminate))
      as (p & rng' & result & pb & g' & _ & Hp & _ & Hrec & _ & Hai & Hpb
          & Hstrat & _ & Hshots & _).
    exists p, rng', result, g'. rewrite Hpb. done.
Defined.

(** Witness of C8: the board [destroyer_board] after its two hits, and the
    fleet laid out on a new 10x10 board from [rng0]. *)
Lemma are_all_ships_sunk_spec_witness :
  ((∀ s, s ∈ Board.ships player_won.(Game.ai_board) →
         Z.of_nat (size (Ship.hit_positions s)) = Ship.size s) ∧
   Board.are_all_ships_sunk player_won.(Game.ai_board) = true) ∧
  (Board.random_placement (Board.init 10) rng0
     = Some (true, fleet_board, Random.mk (Random.tape rng0) 15) ∧
   fresh_fleet standard_fleet (Board.ships fleet_board) ∧
   Board.are_all_ships_sunk fleet_board = false).
Proof.
  destruct are_all_ships_sunk_spec as (_ & Hall & _ & Hfresh).
  assert (Hhits : ∀ s, s ∈ Board.ships player_won.(Game.ai_board) →
                    Z.of_nat (size (Ship.hit_positions s)) = Ship.size s).
  { intros s Hs. apply list_elem_of_singleton in Hs as ->. reflexivity. }
  split.
  - split; [exact Hhits|].
    apply (proj2 (Hall (Game.ai_board player_won))). exact Hhits.
  - split; [vm_compute; reflexivity|].
    apply (Hfresh (Board.init 10) rng0 fleet_board
                  (Random.mk (Random.tape rng0) 15)).
    vm_compute. reflexivity.
Defined.

(** Witness of C9: the first shot and the first turn of a new game on
    which [setup_game] was not called. *)
Lemma empty_fleet_player_wins_witness :
  Board.are_all_ships_sunk (Board.init 10) = true ∧
  (Game.game_over (Game.init 10 None) = false ∧
   Board.ships (Game.ai_board (Game.init 10 None)) = []) ∧
  (Game.game_over (Game.player_shoot (Game.init 10 None) (3, 3)).2 = true ∧
   Game.winner (Game.player_shoot (Game.init 10 None) (3, 3)).2
     = Some "Player"%string) ∧
  (∃ summary g',
     Game.play_turn (Game.init 10 None) (3, 3) rng0 = Some (summary, g', rng0) ∧
     Game.game_over g' = true ∧
     Game.winner g' = Some "Player"%string).
Proof.
  destruct empty_fleet_player_wins as (Hempty & Hinit & Hshoot & Hturn).
  split_and!.
  - apply Hempty. reflexivity.
  - apply Hinit.
  - apply Hinit.
  - apply (Hshoot (Game.init 10 None) (3, 3)); reflexivity.
  - apply (Hshoot (Game.init 10 None) (3, 3)); reflexivity.
  - apply (Hturn (Game.init 10 None) (3, 3) rng0); reflexivity.
Defined.

(** Witness of C10: a shot at the sentinel [(-1, -1)] on
    [destroyer_board]. *)
Lemma receive_shot_out_of_board_witness :
  reachable destroyer_board ∧
  ¬ in_board (Board.size destroyer_board) (-1, -1) ∧
  Board.shots destroyer_board !! (-1, -1) = None ∧
  Board.receive_shot destroyer_board (-1, -1) =
    (MISS, Board.mk (Board.size destroyer_board) (Board.ships destroyer_board)
                    (<[(-1, -1) := MISS]> (Board.shots destroyer_board))).
Proof.
  split; [apply reachable_destroyer_board|].
  split; [apply sentinel_not_in_board|].
  split; [reflexivity|].
  apply (receive_shot_out_of_board destroyer_board (-1, -1)).
  - apply reachable_destroyer_board.
  - apply sentinel_not_in_board.
  - reflexivity.
Defined.

(** ** Further properties: ships *)

Lemma get_positions_cells (s : Ship.t) :
  Ship.get_positions s = cell_at s <$> seqZ 0 (Ship.size s).
Proof.
  unfold Ship.get_positions, cell_at.
  destruct (Ship.start_position s) as [row col]. done.
Qed.

Lemma cell_at_inj (s : Ship.t) : Inj (=) (=) (cell_at s).
Proof.
  intros i j. unfold cell_at.
  destruct (Ship.orientation s); intros [= Heq]; lia.
Qed.

Lemma size_positive (s : Ship.t) : 2 ≤ Ship.size s ≤ 5.
Proof. unfold Ship.size. destruct (Ship.ship_type s); simpl; lia. Qed.

Lemma NoDup_get_positions (s : Ship.t) : NoDup (Ship.get_positions s).
Proof.
  rewrite get_positions_cells.
  apply (NoDup_fmap_2 (cell_at s) (Inj0 := cell_at_inj s)), NoDup_seqZ.
Qed.

Lemma length_get_positions (s : Ship.t) :
  Z.of_nat (length (Ship.get_positions s)) = Ship.size s.
Proof.
  rewrite get_positions_cells, length_fmap, length_seqZ.
  pose proof (size_positive s). lia.
Qed.

Lemma elem_of_get_positions (s : Ship.t) (p : Z * Z) :
  p ∈ Ship.get_positions s ↔ ∃ i, 0 ≤ i < Ship.size s ∧ p = cell_at s i.
Proof.
  rewrite get_positions_cells, list_elem_of_fmap. split.
  - intros (i & -> & Hi). apply elem_of_seqZ in Hi. exists i. split; [lia|done].
  - intros (i & Hi & ->). exists i. split; [done|]. apply elem_of_seqZ. lia.
Qed.

(** X1: [get_positions] lists exactly [size] distinct cells, the cell at
    index [i] lying [i] steps right of (horizontal) or below (vertical) the
    start position. *)
Theorem get_positions_spec (s : Ship.t) :
  Z.of_nat (length (Ship.get_positions s)) = Ship.size s ∧
  NoDup (Ship.get_positions s) ∧
  ∀ i : nat, Z.of_nat i < Ship.size s →
    Ship.get_positions s !! i = Some (cell_at s (Z.of_nat i)).
Proof.
  split; [apply length_get_positions|]. split; [apply NoDup_get_positions|].
  intros i Hi. rewrite get_positions_cells, list_lookup_fmap.
  rewrite lookup_seqZ_lt by done. simpl. f_equal.
Qed.

(** X2: [register_hit] returns [True] exactly when the position is a cell of
    the ship that was not hit before, and then the hit set gains that one
    position; in every other case it returns [False] and the ship is
    unchanged. *)
Theorem register_hit_spec (s : Ship.t) (p : Z * Z) :
  (p ∈ Ship.get_positions s ∧ (p ∉ Ship.hit_positions s) ∧
   Ship.register_hit s p = (true, with_hit s p) ∧
   size (Ship.hit_positions (with_hit s p)) = S (size (Ship.hit_positions s)))
  ∨
  ((p ∉ Ship.get_positions s ∨ p ∈ Ship.hit_positions s) ∧
   Ship.register_hit s p = (false, s)).
Proof.
  unfold Ship.register_hit.
  destruct (decide (p ∈ Ship.get_positions s)) as [Hpos|Hpos].
  - rewrite (proj2 (in_list_true _ _) Hpos).
    destruct (decide (p ∈ Ship.hit_positions s)) as [Hhit|Hhit].
    + right. rewrite bool_decide_eq_true_2 by done. split; [by right|done].
    + left. rewrite bool_decide_eq_false_2 by done. split_and!; try done.
      unfold with_hit. cbn [Ship.hit_positions].
      rewrite size_union by (by apply disjoint_singleton_l).
      by rewrite size_singleton.
  - right. rewrite (proj2 (in_list_false _ _) Hpos). split; [by left|done].
Qed.

Lemma register_hit_unoccupied (s : Ship.t) (p : Z * Z) :
  p ∉ Ship.get_positions s → (Ship.register_hit s p).2 = s.
Proof.
  intros Hp. unfold Ship.register_hit.
  by rewrite (proj2 (in_list_false _ _) Hp).
Qed.

Lemma hits_on_ship_with_hit (s : Ship.t) (p : Z * Z) :
  p ∈ Ship.get_positions s → hits_on_ship s → hits_on_ship (with_hit s p).
Proof.
  intros Hp Hs q Hq. rewrite get_positions_with_hit.
  unfold with_hit in Hq. cbn [Ship.hit_positions] in Hq.
  apply elem_of_union in Hq as [Hq|Hq]; [|by apply Hs].
  by apply elem_of_singleton in Hq as ->.
Qed.

Lemma is_sunk_iff_all_hit (s : Ship.t) :
  hits_on_ship s →
  (Ship.is_sunk s = true ↔
   ∀ p, p ∈ Ship.get_positions s → p ∈ Ship.hit_positions s).
Proof.
  intros Hon. rewrite is_sunk_true.
  assert (Hsub : Ship.hit_positions s ⊆ list_to_set (Ship.get_positions s)).
  { intros q Hq. apply elem_of_list_to_set. by apply Hon. }
  assert (Hsize : Z.of_nat (size (list_to_set (C := gset (Z * Z))
                                    (Ship.get_positions s))) = Ship.size s).
  { rewrite size_list_to_set by apply NoDup_get_positions.
    apply length_get_positions. }
  split.
  - intros Heq p Hp.
    assert (Hsets : Ship.hit_positions s = list_to_set (Ship.get_positions s)).
    { apply set_subseteq_size_eq; [done|]. lia. }
    rewrite Hsets. by apply elem_of_list_to_set.
  - intros Hall.
    assert (Hsets : Ship.hit_positions s = list_to_set (Ship.get_positions s)).
    { apply set_eq. intros q. rewrite elem_of_list_to_set. split; [apply Hon|apply Hall]. }
    by rewrite Hsets.
Qed.

(** X3: [register_hit] keeps every hit on a cell of the ship; and for a
    ship whose hits are all on its cells, [is_sunk] is true exactly when
    each of its cells has been hit. *)
Theorem is_sunk_all_cells_hit (s : Ship.t) (p : Z * Z) :
  hits_on_ship s →
  hits_on_ship (Ship.register_hit s p).2 ∧
  (Ship.is_sunk s = true ↔
   ∀ q, q ∈ Ship.get_positions s → q ∈ Ship.hit_positions s).
Proof.
  intros Hon. split; [|by apply is_sunk_iff_all_hit].
  destruct (decide (p ∈ Ship.get_positions s)) as [Hp|Hp].
  - rewrite register_hit_occupied by done. by apply hits_on_ship_with_hit.
  - by rewrite register_hit_unoccupied.
Qed.

(** ** Further properties: the board *)

Lemma get_ship_at_position_in_None l p :
  Board.get_ship_at_position_in l p = None ↔ ¬ occupied l p.
Proof.
  unfold occupied. induction l as [|s l IH]; simpl.
  - split; [|done]. intros _ (s & Hs & _). by apply elem_of_nil in Hs.
  - destruct (in_list p (Ship.get_positions s)) eqn:Hin.
    + apply in_list_true in Hin. split; [done|].
      intros Hno. exfalso. apply Hno. exists s. split; [left|done].
    + apply in_list_false in Hin. rewrite IH. split.
      * intros Hno (s' & Hs' & Hp).
        apply elem_of_cons in Hs' as [->|Hs']; [done|]. apply Hno. eauto.
      * intros Hno (s' & Hs' & Hp). apply Hno. exists s'. split; [by right|done].
Qed.

Lemma get_ship_at_position_in_Some l p ship :
  Board.get_ship_at_position_in l p = Some ship →
  ∃ pre post,
    l = pre ++ ship :: post ∧
    (∀ s, s ∈ pre → p ∉ Ship.get_positions s) ∧
    p ∈ Ship.get_positions ship.
Proof.
  induction l as [|s l IH]; simpl; [done|].
  destruct (in_list p (Ship.get_positions s)) eqn:Hin.
  - apply in_list_true in Hin. intros [= <-]. exists [], l.
    split_and!; try done. intros s' Hs'. by apply elem_of_nil in Hs'.
  - apply in_list_false in Hin. intros Hrest.
    destruct (IH Hrest) as (pre & post & -> & Hpre & Hship).
    exists (s :: pre), post. split_and!; try done.
    intros s' Hs'. apply elem_of_cons in Hs' as [->|Hs']; auto.
Qed.

Lemma hit_first_is_Some l p :
  is_Some (Board.hit_first l p) ↔ is_Some (Board.get_ship_at_position_in l p).
Proof.
  rewrite <- !not_eq_None_Some.
  by rewrite hit_first_None, get_ship_at_position_in_None.
Qed.

(** X4: [get_ship_at_position] returns the first ship of the list that
    occupies the position, and [None] exactly when no ship occupies it; on a
    position not shot before, [receive_shot] returns [HIT] exactly when
    [get_ship_at_position] finds a ship. *)
Theorem get_ship_at_position_spec (b : Board.t) (p : Z * Z) :
  (Board.get_ship_at_position b p = None ↔ ¬ occupied (Board.ships b) p) ∧
  (∀ ship, Board.get_ship_at_position b p = Some ship →
     ∃ pre post,
       Board.ships b = pre ++ ship :: post ∧
       (∀ s, s ∈ pre → p ∉ Ship.get_positions s) ∧
       p ∈ Ship.get_positions ship) ∧
  (Board.shots b !! p = None →
     ((Board.receive_shot b p).1 = HIT ↔
      is_Some (Board.get_ship_at_position b p))).
Proof.
  unfold Board.get_ship_at_position. split_and!.
  - apply get_ship_at_position_in_None.
  - intros ship. apply get_ship_at_position_in_Some.
  - intros Hfresh. rewrite <- hit_first_is_Some.
    unfold Board.receive_shot. rewrite Hfresh.
    destruct (Board.hit_first (Board.ships b) p); simpl.
    + split; [by eexists|done].
    + split; [done|]. by intros [? ?].
Qed.

Lemma place_ship_true_placeable (b b' : Board.t) (ship : Ship.t) :
  Board.place_ship b ship = (true, b') →
  placeable b ship ∧
  b' = Board.mk (Board.size b) (Board.ships b ++ [ship]) (Board.shots b).
Proof.
  unfold Board.place_ship, placeable.
  destruct (existsb _ (Ship.get_positions ship)) eqn:Hbounds; [done|].
  destruct (existsb _ (Board.ships b)) eqn:Hover; [done|].
  intros [= <-]. split; [|done]. split.
  - by apply existsb_out_of_board_false.
  - by apply existsb_overlaps_false.
Qed.

Lemma pairwise_disjoint_snoc (l : list Ship.t) (ship : Ship.t) :
  pairwise_disjoint l →
  (∀ e, e ∈ l → ∀ p, p ∈ Ship.get_positions e → p ∉ Ship.get_positions ship) →
  pairwise_disjoint (l ++ [ship]).
Proof.
  intros Hl Hnew i j s1 s2 Hij Hi Hj p Hp1 Hp2.
  apply lookup_app_Some in Hi as [Hi|[Hi1 Hi2]];
    apply lookup_app_Some in Hj as [Hj|[Hj1 Hj2]].
  - by apply (Hl i j s1 s2 Hij Hi Hj p).
  - apply list_lookup_singleton_Some in Hj2 as [_ <-].
    eapply (Hnew s1); [by eapply list_elem_of_lookup_2|exact Hp1|exact Hp2].
  - apply list_lookup_singleton_Some in Hi2 as [_ <-].
    eapply (Hnew s2); [by eapply list_elem_of_lookup_2|exact Hp2|exact Hp1].
  - apply list_lookup_singleton_Some in Hi2 as [Hi2 _].
    apply list_lookup_singleton_Some in Hj2 as [Hj2 _]. lia.
Qed.

Lemma valid_fleet_place (b : Board.t) (ship : Ship.t) :
  valid_fleet b → placeable b ship →
  valid_fleet (Board.mk (Board.size b) (Board.ships b ++ [ship]) (Board.shots b)).
Proof.
  intros [Hin Hdis] [Hbounds Hfree]. split.
  - intros s Hs q Hq. simpl in *.
    apply elem_of_app in Hs as [Hs|Hs]; [by eapply Hin|].
    apply list_elem_of_singleton in Hs as ->. by apply Hbounds.
  - simpl. by apply pairwise_disjoint_snoc.
Qed.

(** X5: [place_ship] keeps the layout valid: if the ships of the board lie
    inside the grid and no two of them share a cell, the same holds after
    the call, whether it placed the ship or rejected it; size and shots
    are never touched. *)
Theorem place_ship_keeps_valid_fleet (b : Board.t) (ship : Ship.t) :
  valid_fleet b →
  valid_fleet (Board.place_ship b ship).2 ∧
  Board.size (Board.place_ship b ship).2 = Board.size b ∧
  Board.shots (Board.place_ship b ship).2 = Board.shots b.
Proof.
  intros Hvalid.
  destruct (Board.place_ship b ship) as [[] b'] eqn:Hplace.
  - apply place_ship_true_placeable in Hplace as [Hok ->].
    split; [by apply valid_fleet_place|done].
  - destruct (place_ship_cases b ship) as [Hc|Hc];
      rewrite Hplace in Hc; [discriminate|]. by injection Hc as ->.
Qed.

(** ** Further properties: random placement *)

Lemma try_place_outcome attempts ty b rng ok b' rng' :
  Board.try_place attempts ty b rng = Some (ok, b', rng') →
  (ok = true ∧ ∃ o start,
     placeable b (Ship.init ty o start) ∧
     b' = Board.mk (Board.size b) (Board.ships b ++ [Ship.init ty o start])
                   (Board.shots b))
  ∨ (ok = false ∧ b' = b).
Proof.
  revert rng. induction attempts as [|n IH]; intros rng; simpl.
  - intros [= <- <- <-]. by right.
  - destruct (Random.choice [HORIZONTAL; VERTICAL] rng) as [[o rng1]|]; [|done].
    simpl.
    destruct (match o with
              | HORIZONTAL => _
              | VERTICAL => _
              end) as [[[row col] rng2]|]; [|done].
    simpl.
    destruct (Board.place_ship b (Ship.init ty o (row, col))) as [[] b1]
      eqn:Hplace.
    + apply place_ship_true_placeable in Hplace as [Hok ->].
      intros [= <- <- <-]. left. split; [done|]. by exists o, (row, col).
    + destruct (place_ship_cases b (Ship.init ty o (row, col))) as [Hc|Hc];
        rewrite Hplace in Hc; [discriminate|]. injection Hc as ->. apply IH.
Qed.

Lemma place_all_outcome tys b rng ok b' rng' :
  valid_fleet b →
  Board.place_all tys b rng = Some (ok, b', rng') →
  ∃ new,
    b' = Board.mk (Board.size b) (Board.ships b ++ new) (Board.shots b) ∧
    valid_fleet b' ∧
    fresh_fleet (take (length new) tys) new ∧
    if ok then length new = length tys else (length new < length tys)%nat.
Proof.
  revert b rng. induction tys as [|ty tys IH]; intros b rng Hvalid.
  - intros [= <- <- <-]. exists []. rewrite app_nil_r.
    split_and!; [by destruct b|by destruct b|constructor|done].
  - rewrite place_all_cons.
    destruct (Board.try_place 100 ty b rng) as [[[ok1 b1] rng1]|] eqn:Htry;
      [|discriminate].
    apply try_place_outcome in Htry as [[-> (o & start & Hok & ->)]|[-> ->]].
    + intros Hrest.
      apply IH in Hrest as (new & -> & Hv & Hfresh & Hlen);
        [|by apply valid_fleet_place].
      cbn [Board.size Board.ships Board.shots] in *.
      exists (Ship.init ty o start :: new). split_and!.
      * by rewrite <- app_assoc.
      * exact Hv.
      * simpl. constructor; [by exists o, start|done].
      * destruct ok; simpl; lia.
    + intros [= <- <- <-]. exists []. rewrite app_nil_r.
      split_and!; [by destruct b|by destruct b|constructor|simpl; lia].
Qed.

Lemma valid_fleet_no_ship (n : Z) (shots : gmap (Z * Z) CellState) :
  valid_fleet (Board.mk n [] shots).
Proof.
  split.
  - intros s Hs. by apply elem_of_nil in Hs.
  - intros i j s1 s2 _ Hi. simpl in Hi. by destruct i.
Qed.

Lemma random_placement_outcome b rng ok b' rng' :
  Board.random_placement b rng = Some (ok, b', rng') →
  Board.size b' = Board.size b ∧
  Board.shots b' = Board.shots b ∧
  valid_fleet b' ∧
  fresh_fleet (take (length (Board.ships b')) standard_fleet) (Board.ships b') ∧
  if ok then length (Board.ships b') = 5%nat
  else (length (Board.ships b') < 5)%nat.
Proof.
  unfold Board.random_placement. intros Hp.
  apply place_all_outcome in Hp as (new & -> & Hv & Hfresh & Hlen);
    [|apply valid_fleet_no_ship].
  done.
Qed.

(** X6: when [random_placement] returns [True] the board holds exactly the
    five standard ships in the canonical order, none of them hit, all inside
    the grid and no two sharing a cell; the size and the shots record of the
    board are as before (the shots are not cleared). *)
Theorem random_placement_success (b : Board.t) (rng : Random.t)
    (b' : Board.t) (rng' : Random.t) :
  Board.random_placement b rng = Some (true, b', rng') →
  fresh_fleet standard_fleet (Board.ships b') ∧
  valid_fleet b' ∧
  Board.size b' = Board.size b ∧
  Board.shots b' = Board.shots b.
Proof.
  intros Hp.
  apply random_placement_outcome in Hp as (Hsize & Hshots & Hv & Hfresh & Hlen).
  rewrite Hlen in Hfresh. done.
Qed.

(** X7: when [random_placement] returns [False] nothing is rolled back: the
    board is left with the ships placed so far, fewer than five, the first
    types of the canonical order; the layout is still valid, and size and
    shots are as before. *)
Theorem random_placement_failure (b : Board.t) (rng : Random.t)
    (b' : Board.t) (rng' : Random.t) :
  Board.random_placement b rng = Some (false, b', rng') →
  (length (Board.ships b') < 5)%nat ∧
  fresh_fleet (take (length (Board.ships b')) standard_fleet) (Board.ships b') ∧
  valid_fleet b' ∧
  Board.size b' = Board.size b ∧
  Board.shots b' = Board.shots b.
Proof.
  intros Hp.
  apply random_placement_outcome in Hp as (Hsize & Hshots & Hv & Hfresh & Hlen).
  done.
Qed.

Lemma randint_is_Some (a b : Z) (rng : Random.t) :
  a ≤ b → ∃ k rng', Random.randint a b rng = Some (k, rng') ∧ a ≤ k ≤ b.
Proof.
  intros Hab. unfold Random.randint.
  rewrite (proj2 (Z.ltb_ge b a)) by done. simpl. eexists _, _. split; [done|].
  pose proof (Z.mod_pos_bound
                (Z.of_nat (Random.tape rng (Random.cursor rng))) (b - a + 1)).
  lia.
Qed.

Lemma randint_None (a b : Z) (rng : Random.t) :
  b < a → Random.randint a b rng = None.
Proof.
  intros Hab. unfold Random.randint. by rewrite (proj2 (Z.ltb_lt b a)).
Qed.

Lemma ShipType_value_bounds (ty : ShipType) : 2 ≤ ShipType_value ty ≤ 5.
Proof. destruct ty; simpl; lia. Qed.

Lemma try_place_is_Some attempts ty b rng :
  5 ≤ Board.size b → is_Some (Board.try_place attempts ty b rng).
Proof.
  intros Hsize. revert rng. induction attempts as [|n IH]; intros rng; simpl.
  - by eexists.
  - destruct (choice_nonempty [HORIZONTAL; VERTICAL] rng) as (o & rng1 & -> & _);
      [done|].
    simpl. pose proof (ShipType_value_bounds ty) as Hty.
    destruct (randint_is_Some 0 (Board.size b - 1) rng1)
      as (k1 & r1 & Hk1 & _); [lia|].
    destruct (randint_is_Some 0 (Board.size b - ShipType_value ty) rng1)
      as (k2 & r2 & Hk2 & _); [lia|].
    destruct (randint_is_Some 0 (Board.size b - 1) r2)
      as (k3 & r3 & Hk3 & _); [lia|].
    destruct (randint_is_Some 0 (Board.size b - ShipType_value ty) r1)
      as (k4 & r4 & Hk4 & _); [lia|].
    destruct o; simpl.
    + rewrite Hk1. simpl. rewrite Hk4. simpl.
      destruct (place_ship_cases b (Ship.init ty HORIZONTAL (k1, k4)))
        as [-> | ->]; [by eexists|apply IH].
    + rewrite Hk2. simpl. rewrite Hk3. simpl.
      destruct (place_ship_cases b (Ship.init ty VERTICAL (k2, k3)))
        as [-> | ->]; [by eexists|apply IH].
Qed.

Lemma try_place_size attempts ty b rng ok b' rng' :
  Board.try_place attempts ty b rng = Some (ok, b', rng') →
  Board.size b' = Board.size b.
Proof.
  intros Htry.
  by apply try_place_outcome in Htry as [[_ (o & start & _ & ->)]|[_ ->]].
Qed.

Lemma place_all_is_Some tys b rng :
  5 ≤ Board.size b → is_Some (Board.place_all tys b rng).
Proof.
  revert b rng. induction tys as [|ty tys IH]; intros b rng Hsize.
  - by eexists.
  - rewrite place_all_cons.
    destruct (try_place_is_Some 100 ty b rng Hsize) as [[[ok b1] rng1] Htry].
    rewrite Htry. destruct ok; [|by eexists].
    apply IH. by rewrite (try_place_size _ _ _ _ _ _ _ Htry).
Qed.

Lemma try_place_too_small attempts ty b rng :
  Board.size b < ShipType_value ty →
  Board.try_place (S attempts) ty b rng = None.
Proof.
  intros Hsize. simpl.
  destruct (Random.choice [HORIZONTAL; VERTICAL] rng) as [[o rng1]|]; [|done].
  simpl. destruct o.
  - destruct (Random.randint 0 (Board.size b - 1) rng1) as [[row rng2]|];
      [|done].
    simpl. by rewrite randint_None by lia.
  - by rewrite randint_None by lia.
Qed.

(** X8: [random_placement] raises (the [ValueError] of [random.randint] on
    an empty range) exactly on boards of size below 5, the length of the
    carrier; on every larger board it returns for every run of the random
    source. *)
Theorem random_placement_raises_iff (b : Board.t) (rng : Random.t) :
  Board.random_placement b rng = None ↔ Board.size b < 5.
Proof.
  unfold Board.random_placement. split.
  - intros Hnone. destruct (decide (Board.size b < 5)) as [|Hbig]; [done|].
    destruct (place_all_is_Some standard_fleet
                (Board.mk (Board.size b) [] (Board.shots b)) rng) as [r Hr];
      [simpl; lia|].
    unfold standard_fleet in Hr. congruence.
  - intros Hsmall. rewrite place_all_cons.
    by rewrite (try_place_too_small 99 CARRIER) by done.
Qed.

(** ** Further properties: shots *)

Lemma receive_shot_keeps_record (b : Board.t) (p q : Z * Z) (st : CellState) :
  Board.shots b !! q = Some st →
  Board.shots (Board.receive_shot b p).2 !! q = Some st.
Proof.
  intros Hq.
  destruct (receive_shot_cases b p)
    as [(st' & _ & ->)|[(Hp & pre & ship & post & _ & _ & _ & ->)|(Hp & _ & ->)]];
    simpl; [done|..];
    (rewrite lookup_insert_ne; [done|]; intros ->; congruence).
Qed.

Lemma receive_shot_other (b : Board.t) (p q : Z * Z) :
  q ≠ p →
  Board.shots (Board.receive_shot b p).2 !! q = Board.shots b !! q.
Proof.
  intros Hq.
  destruct (receive_shot_cases b p)
    as [(st' & _ & ->)|[(Hp & pre & ship & post & _ & _ & _ & ->)|(Hp & _ & ->)]];
    simpl; [done|..]; by rewrite lookup_insert_ne.
Qed.

Lemma receive_shot_ships (b : Board.t) (p : Z * Z) :
  Forall2 (λ s s', s' = s ∨ p ∈ Ship.get_positions s ∧ s' = with_hit s p)
          (Board.ships b) (Board.ships (Board.receive_shot b p).2).
Proof.
  assert (Hrefl : ∀ l : list Ship.t,
            Forall2 (λ s s', s' = s ∨ p ∈ Ship.get_positions s ∧ s' = with_hit s p)
                    l l).
  { intros l. apply Forall2_same_length_lookup_2; [done|].
    intros i s s' Hs Hs'. left. congruence. }
  destruct (receive_shot_cases b p)
    as [(st' & Hp & ->)|[(Hp & pre & ship & post & Hl & _ & Hship & ->)|(Hp & _ & ->)]];
    simpl; [done| |done].
  rewrite Hl. apply Forall2_app; [done|]. constructor; [by right|done].
Qed.

Lemma shoot_all_keeps_record (b : Board.t) (ps : list (Z * Z)) (q : Z * Z)
    (st : CellState) :
  Board.shots b !! q = Some st →
  Board.shots (shoot_all b ps) !! q = Some st.
Proof.
  revert b. induction ps as [|p ps IH]; intros b Hq; [done|].
  simpl. apply IH. by apply receive_shot_keeps_record.
Qed.

(** X9: a recorded result is permanent: whatever shots follow, the state
    recorded for a position stays in the shots record and is what a later
    [receive_shot] at that position returns.  A shot changes the record of
    no other position, leaves the size of the board alone, and changes the
    ships only by adding the shot position to the hit set of a ship that
    occupies it. *)
Theorem receive_shot_permanent (b : Board.t) (p q : Z * Z)
    (ps : list (Z * Z)) :
  Board.shots (shoot_all (Board.receive_shot b p).2 ps) !! p
    = Some (Board.receive_shot b p).1 ∧
  (Board.receive_shot (shoot_all (Board.receive_shot b p).2 ps) p).1
    = (Board.receive_shot b p).1 ∧
  (q ≠ p → Board.shots (Board.receive_shot b p).2 !! q = Board.shots b !! q) ∧
  Board.size (Board.receive_shot b p).2 = Board.size b ∧
  Forall2 (λ s s', s' = s ∨ p ∈ Ship.get_positions s ∧ s' = with_hit s p)
          (Board.ships b) (Board.ships (Board.receive_shot b p).2).
Proof.
  assert (Hrec : Board.shots (shoot_all (Board.receive_shot b p).2 ps) !! p
                 = Some (Board.receive_shot b p).1).
  { apply shoot_all_keeps_record, receive_shot_is_recorded. }
  split_and!.
  - done.
  - by rewrite (receive_shot_recorded _ _ _ Hrec).
  - apply receive_shot_other.
  - by destruct (receive_shot_cases b p)
      as [(st' & _ & ->)|[(_ & pre & ship & post & _ & _ & _ & ->)|(_ & _ & ->)]].
  - apply receive_shot_ships.
Qed.

Lemma reachable_shots_known (b : Board.t) :
  reachable b → ∀ q st, Board.shots b !! q = Some st → st = HIT ∨ st = MISS.
Proof.
  induction 1 as [n|b ship _ IH|b p _ IH|b _ IH]; intros q st Hq.
  - simpl in Hq. by rewrite lookup_empty in Hq.
  - destruct (place_ship_cases b ship) as [Hc|Hc]; rewrite Hc in Hq;
      by eapply IH.
  - destruct (receive_shot_cases b p)
      as [(st' & _ & Hr)|[(_ & pre & ship & post & _ & _ & _ & Hr)|(_ & _ & Hr)]];
      rewrite Hr in Hq; simpl in Hq; [by eapply IH|..];
      (destruct (decide (p = q)) as [->|Hne];
       [rewrite lookup_insert_eq in Hq; injection Hq as <-; auto
       |rewrite lookup_insert_ne in Hq by done; by eapply IH]).
  - by eapply IH.
Qed.

(** X10: on a board built through the interface, [receive_shot] returns
    [HIT] or [MISS], never [UNKNOWN], also on a repeated shot. *)
Theorem receive_shot_hit_or_miss (b : Board.t) (p : Z * Z) :
  reachable b →
  (Board.receive_shot b p).1 = HIT ∨ (Board.receive_shot b p).1 = MISS.
Proof.
  intros Hb.
  apply (reachable_shots_known (Board.receive_shot b p).2
           (reachable_receive_shot b p Hb) p).
  apply receive_shot_is_recorded.
Qed.

(** ** Further properties: hits follow shots *)

Lemma tracked_fresh (b : Board.t) :
  (∀ s, s ∈ Board.ships b → Ship.hit_positions s = ∅) →
  Board.shots b = ∅ →
  tracked b.
Proof.
  intros Hfresh Hshots s Hs p. rewrite (Hfresh s Hs), Hshots, lookup_empty.
  split; [by intros ?%not_elem_of_empty|]. by intros [_ [? ?]].
Qed.

Lemma pairwise_disjoint_middle pre ship post p :
  pairwise_disjoint (pre ++ ship :: post) →
  p ∈ Ship.get_positions ship →
  ∀ s, s ∈ post → p ∉ Ship.get_positions s.
Proof.
  intros Hdis Hp s Hs.
  apply list_elem_of_lookup_1 in Hs as [k Hk].
  apply (Hdis (length pre) (length pre + S k)%nat ship s); [lia| | |done].
  - by rewrite list_lookup_middle.
  - rewrite lookup_app_r by lia.
    replace (length pre + S k - length pre)%nat with (S k) by lia. done.
Qed.

Lemma tracked_receive_shot (b : Board.t) (p : Z * Z) :
  pairwise_disjoint (Board.ships b) →
  tracked b →
  tracked (Board.receive_shot b p).2.
Proof.
  intros Hdis Htr.
  destruct (receive_shot_cases b p)
    as [(st' & _ & ->)|[(Hp & pre & ship & post & Hl & Hpre & Hship & ->)
                       |(Hp & Hno & ->)]]; [done|..].
  - intros s Hs q. cbn [snd Board.ships Board.shots] in *.
    rewrite Hl in Hdis.
    assert (Hold : ∀ s0, s0 ∈ pre ++ ship :: post →
              ∀ q, q ∈ Ship.hit_positions s0 ↔
                   q ∈ Ship.get_positions s0 ∧ is_Some (Board.shots b !! q)).
    { intros s0 Hs0. apply Htr. by rewrite Hl. }
    assert (Hother : ∀ s0, s0 ∈ pre ++ ship :: post →
              p ∉ Ship.get_positions s0 →
              (q ∈ Ship.hit_positions s0 ↔
               q ∈ Ship.get_positions s0
               ∧ is_Some (<[p := HIT]> (Board.shots b) !! q))).
    { intros s0 Hs0 Hp0. rewrite (Hold s0 Hs0 q). split.
      - intros [Hq1 Hq2]. split; [done|].
        rewrite lookup_insert_ne; [done|]. by intros ->.
      - intros [Hq1 Hq2]. split; [done|].
        rewrite lookup_insert_ne in Hq2; [done|]. by intros ->. }
    apply elem_of_app in Hs as [Hs|Hs].
    + apply Hother; [apply elem_of_app; by left|by apply Hpre].
    + apply elem_of_cons in Hs as [->|Hs].
      * rewrite get_positions_with_hit. unfold with_hit.
        cbn [Ship.hit_positions]. rewrite elem_of_union, elem_of_singleton.
        rewrite (Hold ship) by (apply elem_of_app; right; left).
        destruct (decide (q = p)) as [->|Hq].
        -- rewrite lookup_insert_eq. split; [by eauto|by left].
        -- rewrite lookup_insert_ne by done. split; [|by right].
           intros [?|?]; done.
      * apply Hother; [apply elem_of_app; right; by right|].
        by eapply pairwise_disjoint_middle.
  - intros s Hs q. cbn [snd Board.ships Board.shots] in *.
    rewrite (Htr s Hs q). split.
    + intros [Hq1 Hq2]. split; [done|]. rewrite lookup_insert_ne; [done|].
      intros ->. apply Hno. by exists s.
    + intros [Hq1 Hq2]. split; [done|]. rewrite lookup_insert_ne in Hq2; [done|].
      intros ->. apply Hno. by exists s.
Qed.

Lemma pairwise_disjoint_receive_shot (b : Board.t) (p : Z * Z) :
  pairwise_disjoint (Board.ships b) →
  pairwise_disjoint (Board.ships (Board.receive_shot b p).2).
Proof.
  intros Hdis i j s1' s2' Hij Hi Hj q Hq1 Hq2.
  pose proof (receive_shot_ships b p) as Hships.
  destruct (Forall2_lookup_r _ _ _ _ _ Hships Hi) as (s1 & Hs1 & Hr1).
  destruct (Forall2_lookup_r _ _ _ _ _ Hships Hj) as (s2 & Hs2 & Hr2).
  apply (Hdis i j s1 s2 Hij Hs1 Hs2 q).
  - by destruct Hr1 as [->|[_ ->]].
  - by destruct Hr2 as [->|[_ ->]].
Qed.

Lemma ships_in_board_receive_shot (b : Board.t) (p : Z * Z) :
  ships_in_board b → ships_in_board (Board.receive_shot b p).2.
Proof. apply receive_shot_in_board. Qed.

(** X11: on a board whose ships share no cell, [receive_shot] keeps the hit
    sets in step with the shots record: if a cell counts as hit on a ship
    exactly when it is a cell of that ship and has been shot, the same holds
    after the shot (and the ships still share no cell). *)
Theorem receive_shot_keeps_tracked (b : Board.t) (p : Z * Z) :
  pairwise_disjoint (Board.ships b) →
  tracked b →
  tracked (Board.receive_shot b p).2 ∧
  pairwise_disjoint (Board.ships (Board.receive_shot b p).2).
Proof.
  intros Hdis Htr. split.
  - by apply tracked_receive_shot.
  - by apply pairwise_disjoint_receive_shot.
Qed.

Lemma tracked_hits_on_ship (b : Board.t) (s : Ship.t) :
  tracked b → s ∈ Board.ships b → hits_on_ship s.
Proof. intros Htr Hs p Hp. by apply (Htr s Hs p). Qed.

Lemma tracked_sunk_all_shot (b : Board.t) :
  tracked b →
  Board.are_all_ships_sunk b = true →
  ∀ s, s ∈ Board.ships b →
    ∀ q, q ∈ Ship.get_positions s → is_Some (Board.shots b !! q).
Proof.
  intros Htr Hall s Hs q Hq.
  unfold Board.are_all_ships_sunk in Hall. rewrite forallb_forall in Hall.
  assert (Hsunk : Ship.is_sunk s = true) by by apply Hall, list_elem_of_In.
  pose proof (proj1 (is_sunk_iff_all_hit s (tracked_hits_on_ship b s Htr Hs))
                Hsunk q Hq) as Hhit.
  by apply (Htr s Hs q) in Hhit as [_ ?].
Qed.

Lemma tracked_all_sunk (b : Board.t) :
  tracked b →
  (∀ s, s ∈ Board.ships b →
     ∀ q, q ∈ Ship.get_positions s → is_Some (Board.shots b !! q)) →
  Board.are_all_ships_sunk b = true.
Proof.
  intros Htr Hall. unfold Board.are_all_ships_sunk. apply forallb_forall.
  intros s Hs. apply list_elem_of_In in Hs.
  apply (proj2 (is_sunk_iff_all_hit s (tracked_hits_on_ship b s Htr Hs))).
  intros q Hq. apply (Htr s Hs q). split; [done|]. by apply (Hall s Hs q).
Qed.

(** X12: on a board whose hit sets follow the shots record,
    [are_all_ships_sunk] is true exactly when every cell of every ship has
    been shot. *)
Theorem all_sunk_iff_all_cells_shot (b : Board.t) :
  tracked b →
  (Board.are_all_ships_sunk b = true ↔
   ∀ s, s ∈ Board.ships b →
     ∀ q, q ∈ Ship.get_positions s → is_Some (Board.shots b !! q)).
Proof.
  intros Htr. split.
  - by apply tracked_sunk_all_shot.
  - by apply tracked_all_sunk.
Qed.

(** ** Further properties: the strategy *)

Lemma flat_map_bind {A B : Type} (f : A → list B) (l : list A) :
  flat_map f l = l ≫= f.
Proof. induction l as [|x l IH]; [done|]. simpl. by rewrite IH. Qed.

Lemma filter_all (P : Z * Z → Prop) `{∀ x, Decision (P x)} (l : list (Z * Z)) :
  (∀ x, x ∈ l → P x) → filter P l = l.
Proof.
  induction l as [|x l IH]; intros Hall; [done|].
  rewrite filter_cons, decide_True by (apply Hall; left).
  f_equal. apply IH. intros y Hy. apply Hall. by right.
Qed.

Lemma available_row_filter (sh : list (Z * Z)) (row : Z) (cols : list Z) :
  flat_map (λ col, if in_list (row, col) sh then [] else [(row, col)]) cols
  = filter (λ q, q ∉ sh) ((λ col, (row, col)) <$> cols).
Proof.
  induction cols as [|c cols IH]; [done|].
  cbn [flat_map]. rewrite IH, fmap_cons, filter_cons.
  destruct (decide ((row, c) ∉ sh)) as [Hc|Hc].
  - by rewrite (proj2 (in_list_false _ _) Hc).
  - apply dec_stable in Hc. by rewrite (proj2 (in_list_true _ _) Hc).
Qed.

Lemma available_filter (sh : list (Z * Z)) (rows cols : list Z) :
  flat_map (λ row,
    flat_map (λ col, if in_list (row, col) sh then [] else [(row, col)]) cols)
    rows
  = filter (λ q, q ∉ sh) (flat_map (λ row, (λ col, (row, col)) <$> cols) rows).
Proof.
  induction rows as [|r rows IH]; [done|].
  simpl. by rewrite IH, filter_app, available_row_filter.
Qed.

Lemma get_available_positions_filter (s : Strategy.t) :
  Strategy.get_available_positions s
  = filter (λ q, q ∉ Strategy.shots s) (all_cells (Strategy.board_size s)).
Proof. apply available_filter. Qed.

Lemma elem_of_all_cells (n : Z) (q : Z * Z) : q ∈ all_cells n ↔ in_board n q.
Proof.
  unfold all_cells, in_board. rewrite flat_map_bind, list_elem_of_bind. split.
  - intros (row & Hq & Hrow). apply list_elem_of_fmap in Hq as (col & -> & Hcol).
    apply elem_of_seqZ in Hrow, Hcol. simpl. lia.
  - destruct q as [row col]. simpl. intros [Hrow Hcol]. exists row. split.
    + apply list_elem_of_fmap. exists col. split; [done|].
      apply elem_of_seqZ. lia.
    + apply elem_of_seqZ. lia.
Qed.

Lemma NoDup_all_cells (n : Z) : NoDup (all_cells n).
Proof.
  unfold all_cells. rewrite flat_map_bind. apply NoDup_bind.
  - intros r1 r2 q _ _ Hq1 Hq2.
    apply list_elem_of_fmap in Hq1 as (c1 & -> & _).
    apply list_elem_of_fmap in Hq2 as (c2 & [= -> _] & _). done.
  - intros row _. apply (NoDup_fmap_2 (λ col, (row, col))), NoDup_seqZ.
  - apply NoDup_seqZ.
Qed.

Lemma length_all_cells (n : Z) :
  length (all_cells n) = (Z.to_nat n * Z.to_nat n)%nat.
Proof.
  unfold all_cells.
  assert (Hrows : ∀ rows : list Z,
            length (flat_map (λ row, (λ col, (row, col)) <$> seqZ 0 n) rows)
            = (length rows * Z.to_nat n)%nat).
  { induction rows as [|r rows IH]; [done|].
    simpl. rewrite length_app, IH, length_fmap, length_seqZ. lia. }
  by rewrite Hrows, length_seqZ.
Qed.

Lemma NoDup_get_available_positions (s : Strategy.t) :
  NoDup (Strategy.get_available_positions s).
Proof.
  rewrite get_available_positions_filter.
  apply NoDup_filter, NoDup_all_cells.
Qed.

(** X13: after [reset] the histories are empty and
    [get_available_positions] is the full board: each of the
    [board_size]^2 cells once, row by row. *)
Theorem reset_makes_all_available (s : Strategy.t) :
  Strategy.shots (Strategy.reset s) = [] ∧
  Strategy.hits (Strategy.reset s) = [] ∧
  Strategy.misses (Strategy.reset s) = [] ∧
  Strategy.get_available_positions (Strategy.reset s)
    = all_cells (Strategy.board_size s) ∧
  NoDup (all_cells (Strategy.board_size s)) ∧
  length (all_cells (Strategy.board_size s))
    = (Z.to_nat (Strategy.board_size s) * Z.to_nat (Strategy.board_size s))%nat ∧
  ∀ q, q ∈ all_cells (Strategy.board_size s) ↔ in_board (Strategy.board_size s) q.
Proof.
  split; [done|]. split; [done|]. split; [done|]. split_and!.
  - rewrite get_available_positions_filter. simpl.
    apply filter_all. intros q _. apply not_elem_of_nil.
  - apply NoDup_all_cells.
  - apply length_all_cells.
  - apply elem_of_all_cells.
Qed.

Lemma available_register_result (s : Strategy.t) (p : Z * Z) (r : CellState) :
  Strategy.get_available_positions (Strategy.register_result s p r)
  = filter (λ q, q ≠ p) (Strategy.get_available_positions s).
Proof.
  rewrite !get_available_positions_filter.
  destruct (register_result_shots s p r) as [-> ->].
  rewrite list_filter_filter. apply list_filter_iff. intros q.
  rewrite not_elem_of_app, list_elem_of_singleton. tauto.
Qed.

Lemma length_filter_ne (l : list (Z * Z)) (p : Z * Z) :
  NoDup l → p ∈ l → length l = S (length (filter (λ q, q ≠ p) l)).
Proof.
  induction 1 as [|x l Hx Hl IH]; intros Hp; [by apply elem_of_nil in Hp|].
  rewrite filter_cons. destruct (decide (x ≠ p)) as [Hne|Heq].
  - apply elem_of_cons in Hp as [->|Hp]; [done|]. simpl. by rewrite <- IH.
  - apply dec_stable in Heq as ->. simpl. f_equal.
    symmetry. f_equal. apply filter_all.
    intros q Hq ->. done.
Qed.

(** X14: registering a result removes exactly the registered position from
    [get_available_positions], for every result: the other available
    positions stay, in the same order; no position is listed twice; and if
    the position was available the list gets shorter by one. *)
Theorem register_result_available (s : Strategy.t) (p : Z * Z) (r : CellState) :
  Strategy.get_available_positions (Strategy.register_result s p r)
    = filter (λ q, q ≠ p) (Strategy.get_available_positions s) ∧
  NoDup (Strategy.get_available_positions s) ∧
  (p ∈ Strategy.get_available_positions s →
   length (Strategy.get_available_positions s)
   = S (length (Strategy.get_available_positions
                  (Strategy.register_result s p r)))).
Proof.
  split; [apply available_register_result|].
  split; [apply NoDup_get_available_positions|].
  intros Hp. rewrite available_register_result.
  apply length_filter_ne; [apply NoDup_get_available_positions|done].
Qed.

(** ** Further properties: the game *)

(** X15: [player_shoot] never touches the player's own board, the strategy,
    the turn counter or the board size.  On a terminal game it returns
    [UNKNOWN] and changes nothing; otherwise it returns the result of
    [receive_shot] on the AI's board and leaves that board as
    [receive_shot] left it. *)
Theorem player_shoot_frame (g : Game.t) (p : Z * Z) :
  Game.player_board (Game.player_shoot g p).2 = Game.player_board g ∧
  Game.ai_strategy (Game.player_shoot g p).2 = Game.ai_strategy g ∧
  Game.turn_count (Game.player_shoot g p).2 = Game.turn_count g ∧
  Game.board_size (Game.player_shoot g p).2 = Game.board_size g ∧
  (Game.game_over g = true → Game.player_shoot g p = (UNKNOWN, g)) ∧
  (Game.game_over g = false →
   (Game.player_shoot g p).1 = (Board.receive_shot (Game.ai_board g) p).1 ∧
   Game.ai_board (Game.player_shoot g p).2
     = (Board.receive_shot (Game.ai_board g) p).2).
Proof.
  destruct (Game.game_over g) eqn:Hover.
  - assert (Hshoot : Game.player_shoot g p = (UNKNOWN, g)).
    { unfold Game.player_shoot. by rewrite Hover. }
    rewrite Hshoot. split_and!; done.
  - rewrite player_shoot_running by done. split_and!; done.
Qed.

Lemma coherent_after_player_shot (g : Game.t) (p : Z * Z) :
  coherent g → coherent (after_player_shot g p).
Proof.
  unfold coherent, after_player_shot. cbn [Game.winner Game.game_over].
  destruct (Board.are_all_ships_sunk _); [intros _; split; auto|done].
Qed.

Lemma coherent_after_ai_shot (g : Game.t) (p : Z * Z) :
  coherent g → coherent (after_ai_shot g p).
Proof.
  unfold coherent, after_ai_shot.
  destruct (Board.receive_shot (Game.player_board g) p) as [result pb].
  cbn [Game.winner Game.game_over].
  destruct (Board.are_all_ships_sunk pb); [intros _; split; auto|done].
Qed.

Lemma coherent_player_shoot (g : Game.t) (p : Z * Z) :
  coherent g → coherent (Game.player_shoot g p).2.
Proof.
  intros Hg. destruct (Game.game_over g) eqn:Hover.
  - unfold Game.player_shoot. by rewrite Hover.
  - rewrite player_shoot_running by done. revert Hg.
    unfold coherent. cbn [snd Game.winner Game.game_over].
    destruct (Board.are_all_ships_sunk _); [intros _; split; auto|].
    by rewrite Hover.
Qed.

Lemma coherent_ai_shoot (g : Game.t) (rng : Random.t) r g' rng' :
  coherent g → Game.ai_shoot g rng = Some (r, g', rng') → coherent g'.
Proof.
  intros Hg Hai.
  destruct (ai_shoot_cases g rng) as [(r1 & Hc)|(q & r1 & _ & _ & Hc)];
    rewrite Hc in Hai; injection Hai as <- <- <-; [done|].
  by apply coherent_after_ai_shot.
Qed.

Lemma coherent_play_turn (g : Game.t) (p : Z * Z) (rng : Random.t) d g' rng' :
  coherent g → Game.play_turn g p rng = Some (d, g', rng') → coherent g'.
Proof.
  intros Hg Hturn.
  destruct (play_turn_cases g p rng)
    as [[_ Hc]|[(_ & _ & Hc)|(_ & _ & q & r & g1 & r1 & Hai & Hc)]];
    rewrite Hc in Hturn; injection Hturn as <- <- <-.
  - done.
  - by apply coherent_after_player_shot.
  - eapply coherent_ai_shoot; [|exact Hai]. by apply coherent_after_player_shot.
Qed.

Lemma setup_game_Some (g g' : Game.t) (rng rng' : Random.t) :
  Game.setup_game g rng = Some (g', rng') →
  ∃ ok1 pb rng1 ok2 ab,
    Board.random_placement (Game.player_board g) rng = Some (ok1, pb, rng1) ∧
    Board.random_placement (Game.ai_board g) rng1 = Some (ok2, ab, rng') ∧
    g' = Game.mk pb ab (Game.board_size g) (Game.turn_count g)
                 (Game.game_over g) (Game.winner g)
                 (Strategy.reset (Game.ai_strategy g)).
Proof.
  unfold Game.setup_game.
  destruct (Board.random_placement (Game.player_board g) rng)
    as [[[ok1 pb] rng1]|] eqn:Hpb; simpl; [|done].
  destruct (Board.random_placement (Game.ai_board g) rng1)
    as [[[ok2 ab] rng2]|] eqn:Hab; simpl; [|done].
  intros [= <- <-]. by exists ok1, pb, rng1, ok2, ab.
Qed.

(** X16: the winner is set exactly on terminal games: a new game has no
    winner and is not terminal, and [player_shoot], [ai_shoot], [play_turn]
    and [setup_game] all keep the game in one of the states "not terminal,
    no winner" and "terminal, winner Player or AI". *)
Theorem winner_iff_game_over :
  (∀ n strategy, coherent (Game.init n strategy)) ∧
  (∀ g p, coherent g → coherent (Game.player_shoot g p).2) ∧
  (∀ g rng r g' rng',
     coherent g → Game.ai_shoot g rng = Some (r, g', rng') → coherent g') ∧
  (∀ g p rng d g' rng',
     coherent g → Game.play_turn g p rng = Some (d, g', rng') → coherent g') ∧
  (∀ g rng g' rng',
     coherent g → Game.setup_game g rng = Some (g', rng') → coherent g').
Proof.
  split_and!.
  - done.
  - apply coherent_player_shoot.
  - apply coherent_ai_shoot.
  - apply coherent_play_turn.
  - intros g rng g' rng' Hg Hsetup.
    apply setup_game_Some in Hsetup as (? & ? & ? & ? & ? & _ & _ & ->).
    done.
Qed.

Lemma history_ok_nil (n : Z) (h m : list (Z * Z)) :
  history_ok (Strategy.mk n [] h m).
Proof.
  split; [constructor|]. intros p Hp. by apply elem_of_nil in Hp.
Qed.

Lemma history_ok_register (s : Strategy.t) (p : Z * Z) (r : CellState) :
  history_ok s →
  p ∈ Strategy.get_available_positions s →
  history_ok (Strategy.register_result s p r).
Proof.
  intros [Hnd Hin] Hp.
  apply elem_of_get_available_positions in Hp as [Hb Hnew].
  destruct (register_result_shots s p r) as [Hshots Hsize].
  unfold history_ok. rewrite Hshots, Hsize. split.
  - apply NoDup_app. split_and!; [done| |apply NoDup_singleton].
    intros q Hq Hq'. apply list_elem_of_singleton in Hq' as ->. done.
  - intros q Hq. apply elem_of_app in Hq as [Hq|Hq]; [by apply Hin|].
    by apply list_elem_of_singleton in Hq as ->.
Qed.

Lemma history_ok_fresh_shot (s : Strategy.t) (rng rng' : Random.t) (p : Z * Z) :
  history_ok s →
  RandomStrategy.get_next_shot s rng = Some (p, rng') →
  p ∉ Strategy.shots s.
Proof.
  intros [_ Hin] Hshot.
  destruct (decide (Strategy.get_available_positions s = [])) as [Hnil|Hne].
  - rewrite get_next_shot_exhausted in Hshot by done. injection Hshot as <- <-.
    intros Hsent. by apply (sentinel_not_in_board (Strategy.board_size s)), Hin.
  - destruct (get_next_shot_available s rng Hne) as (q & r & Hq & Hav).
    rewrite Hq in Hshot. injection Hshot as <- <-.
    by apply elem_of_get_available_positions in Hav as [_ ?].
Qed.

Lemma history_ok_ai_shoot (g : Game.t) (rng : Random.t) r g' rng' :
  history_ok (Game.ai_strategy g) →
  Game.ai_shoot g rng = Some (r, g', rng') →
  history_ok (Game.ai_strategy g').
Proof.
  intros Hs Hai.
  destruct (ai_shoot_cases g rng) as [(r1 & Hc)|(q & r1 & _ & Hq & Hc)];
    rewrite Hc in Hai; injection Hai as <- <- <-; [done|].
  unfold after_ai_shot.
  destruct (Board.receive_shot (Game.player_board g) q) as [result pb].
  cbn [Game.ai_strategy]. by apply history_ok_register.
Qed.

(** X17: as long as the shot history of the strategy has no repetition and
    holds only cells of the board (as after [reset]), [get_next_shot] never
    returns a position of that history, and [ai_shoot] and [play_turn] keep
    the history that way: the AI never shoots a cell twice and the sentinel
    is never registered. *)
Theorem ai_never_repeats :
  (∀ s, history_ok (Strategy.reset s)) ∧
  (∀ s rng p rng',
     history_ok s →
     RandomStrategy.get_next_shot s rng = Some (p, rng') →
     p ∉ Strategy.shots s) ∧
  (∀ g rng r g' rng',
     history_ok (Game.ai_strategy g) →
     Game.ai_shoot g rng = Some (r, g', rng') →
     history_ok (Game.ai_strategy g')) ∧
  (∀ g p rng d g' rng',
     history_ok (Game.ai_strategy g) →
     Game.play_turn g p rng = Some (d, g', rng') →
     history_ok (Game.ai_strategy g')).
Proof.
  split_and!.
  - intros s. apply history_ok_nil.
  - intros s rng p rng'. apply history_ok_fresh_shot.
  - apply history_ok_ai_shoot.
  - intros g p rng d g' rng' Hs Hturn.
    destruct (play_turn_cases g p rng)
      as [[_ Hc]|[(_ & _ & Hc)|(_ & _ & q & r & g1 & r1 & Hai & Hc)]];
      rewrite Hc in Hturn; injection Hturn as <- <- <-; [done..|].
    by eapply history_ok_ai_shoot; [|exact Hai].
Qed.


(** ** Further properties: the benchmark game *)

Lemma receive_shot_size (b : Board.t) (p : Z * Z) :
  Board.size (Board.receive_shot b p).2 = Board.size b.
Proof.
  by destruct (receive_shot_cases b p)
    as [(st' & _ & ->)|[(_ & pre & ship & post & _ & _ & _ & ->)|(_ & _ & ->)]].
Qed.

Lemma receive_shot_is_Some (b : Board.t) (p q : Z * Z) :
  is_Some (Board.shots (Board.receive_shot b p).2 !! q) ↔
  q = p ∨ is_Some (Board.shots b !! q).
Proof.
  destruct (decide (q = p)) as [->|Hq].
  - rewrite receive_shot_is_recorded. split; [by left|by eexists].
  - rewrite receive_shot_other by done. split; [by right|by intros [?|?]].
Qed.

Lemma clear_board_step (fuel : nat) (b : Board.t) (s : Strategy.t)
    (rng rng' : Random.t) (t : Z) (p : Z * Z) :
  RandomStrategy.get_next_shot s rng = Some (p, rng') →
  Benchmark.clear_board (S fuel) b s rng t =
    if Board.are_all_ships_sunk (Board.receive_shot b p).2
    then Some (t + 1, (Board.receive_shot b p).2,
               Strategy.register_result s p (Board.receive_shot b p).1, rng')
    else Benchmark.clear_board fuel (Board.receive_shot b p).2
           (Strategy.register_result s p (Board.receive_shot b p).1) rng' (t + 1).
Proof.
  intros Hshot. cbn [Benchmark.clear_board]. rewrite Hshot. simpl.
  by destruct (Board.receive_shot b p).
Qed.

Lemma valid_fleet_receive_shot (b : Board.t) (p : Z * Z) :
  valid_fleet b → valid_fleet (Board.receive_shot b p).2.
Proof.
  intros [Hin Hdis]. split.
  - by apply receive_shot_in_board.
  - by apply pairwise_disjoint_receive_shot.
Qed.

Lemma synced_step (b : Board.t) (s : Strategy.t) (p : Z * Z) (r : CellState) :
  synced b s →
  synced (Board.receive_shot b p).2 (Strategy.register_result s p r).
Proof.
  intros [Hsize Hshots].
  destruct (register_result_shots s p r) as [Hs Hn].
  split.
  - by rewrite receive_shot_size, Hn.
  - intros q. rewrite receive_shot_is_Some, Hs, elem_of_app, Hshots.
    rewrite list_elem_of_singleton. tauto.
Qed.

Lemma exhausted_all_shot (b : Board.t) (s : Strategy.t) :
  ships_in_board b → synced b s →
  Strategy.get_available_positions s = [] →
  ∀ ship, ship ∈ Board.ships b →
    ∀ q, q ∈ Ship.get_positions ship → is_Some (Board.shots b !! q).
Proof.
  intros Hin [Hsize Hshots] Hnil ship Hship q Hq.
  apply Hshots. apply (proj1 (get_available_positions_nil s) Hnil).
  rewrite <- Hsize. by eapply Hin.
Qed.

Lemma all_shot_receive_shot (b : Board.t) (p : Z * Z) :
  (∀ ship, ship ∈ Board.ships b →
     ∀ q, q ∈ Ship.get_positions ship → is_Some (Board.shots b !! q)) →
  pairwise_disjoint (Board.ships b) → tracked b →
  Board.are_all_ships_sunk (Board.receive_shot b p).2 = true.
Proof.
  intros Hall Hdis Htr.
  assert (Hsunk : Board.are_all_ships_sunk b = true)
    by by apply tracked_all_sunk.
  destruct (receive_shot_cases b p)
    as [(st' & _ & ->)|[(Hp & pre & ship & post & Hl & _ & Hship & _)|(_ & _ & ->)]];
    [done| |done].
  exfalso. destruct (Hall ship) with (q := p) as [st Hst]; [|done|congruence].
  rewrite Hl. apply elem_of_app. right. left.
Qed.

Lemma clear_board_finishes (fuel : nat) (b : Board.t) (s : Strategy.t)
    (rng : Random.t) (t : Z) :
  valid_fleet b → tracked b → synced b s →
  (length (Strategy.get_available_positions s) < fuel)%nat →
  ∃ t' b' s' rng',
    Benchmark.clear_board fuel b s rng t = Some (t', b', s', rng') ∧
    Board.are_all_ships_sunk b' = true ∧
    t + 1 ≤ t' ≤
      t + Z.max 1 (Z.of_nat (length (Strategy.get_available_positions s))).
Proof.
  revert b s rng t. induction fuel as [|fuel IH];
    intros b s rng t Hv Htr Hsync Hfuel; [lia|].
  destruct (decide (Strategy.get_available_positions s = [])) as [Hnil|Hne].
  - rewrite (clear_board_step fuel b s rng rng t (-1, -1))
      by by apply get_next_shot_exhausted.
    rewrite all_shot_receive_shot;
      [|by eapply exhausted_all_shot; [apply Hv|..]|apply Hv|done].
    eexists _, _, _, _. split; [done|]. split.
    + apply all_shot_receive_shot;
        [by eapply exhausted_all_shot; [apply Hv|..]|apply Hv|done].
    + lia.
  - destruct (get_next_shot_available s rng Hne) as (p & rng' & Hshot & Hp).
    rewrite (clear_board_step fuel b s rng rng' t p Hshot).
    set (b1 := (Board.receive_shot b p).2).
    set (s1 := Strategy.register_result s p (Board.receive_shot b p).1).
    assert (Hv1 : valid_fleet b1) by by apply valid_fleet_receive_shot.
    assert (Htr1 : tracked b1) by (apply tracked_receive_shot; [apply Hv|done]).
    assert (Hsync1 : synced b1 s1) by by apply synced_step.
    assert (Hlen : length (Strategy.get_available_positions s)
                   = S (length (Strategy.get_available_positions s1))).
    { unfold s1. rewrite available_register_result.
      apply length_filter_ne; [apply NoDup_get_available_positions|done]. }
    destruct (Board.are_all_ships_sunk b1) eqn:Hsunk.
    + eexists _, _, _, _. split; [done|]. split; [done|]. lia.
    + destruct (IH b1 s1 rng' (t + 1) Hv1 Htr1 Hsync1)
        as (t' & b' & s' & r' & Hrun & Hdone & Hbound); [lia|].
      exists t', b', s', r'. split; [done|]. split; [done|].
      assert (Hleft : Strategy.get_available_positions s1 ≠ []).
      { intros Hnil.
        assert (Board.are_all_ships_sunk b1 = true); [|congruence].
        apply tracked_all_sunk; [done|].
        by eapply exhausted_all_shot; [apply Hv1|..]. }
      destruct (Strategy.get_available_positions s1) as [|x l]; [done|].
      simpl in *. lia.
Qed.

Lemma size_with_hit (s : Ship.t) (p : Z * Z) :
  Ship.size (with_hit s p) = Ship.size s ∧
  (size (Ship.hit_positions (with_hit s p)) ≤ S (size (Ship.hit_positions s)))%nat.
Proof.
  split; [done|]. unfold with_hit. cbn [Ship.hit_positions].
  rewrite size_union_alt, size_singleton.
  assert (Hsub : Ship.hit_positions s ∖ {[p]} ⊆ Ship.hit_positions s)
    by apply subseteq_difference_l, reflexivity.
  apply subseteq_size in Hsub. lia.
Qed.

Lemma receive_shot_counts (b : Board.t) (p : Z * Z) :
  fleet_cells (Board.receive_shot b p).2 = fleet_cells b ∧
  (total_hits (Board.receive_shot b p).2 ≤ S (total_hits b))%nat.
Proof.
  unfold fleet_cells, total_hits.
  destruct (receive_shot_cases b p)
    as [(st' & _ & ->)|[(_ & pre & ship & post & Hl & _ & _ & ->)|(_ & _ & ->)]];
    cbn [snd Board.ships].
  - split; [done|]. apply Nat.le_succ_diag_r.
  - rewrite Hl, !sum_list_with_app. cbn [sum_list_with].
    destruct (size_with_hit ship p) as [-> Hhits]. split; [done|].
    revert Hhits.
    generalize (size (Ship.hit_positions (with_hit ship p))).
    generalize (size (Ship.hit_positions ship)).
    generalize (sum_list_with (λ s, size (Ship.hit_positions s)) pre).
    generalize (sum_list_with (λ s, size (Ship.hit_positions s)) post).
    clear. intros c a h h' Hh. lia.
  - split; [done|]. apply Nat.le_succ_diag_r.
Qed.

Lemma sunk_counts (b : Board.t) :
  Board.are_all_ships_sunk b = true → total_hits b = fleet_cells b.
Proof.
  unfold Board.are_all_ships_sunk, total_hits, fleet_cells.
  induction (Board.ships b) as [|s l IH]; [done|].
  simpl. intros [Hs Hl]%andb_prop. rewrite (IH Hl).
  apply is_sunk_true in Hs. lia.
Qed.

Lemma clear_board_at_least (fuel : nat) (b : Board.t) (s : Strategy.t)
    (rng : Random.t) (t t' : Z) b' s' rng' :
  Benchmark.clear_board fuel b s rng t = Some (t', b', s', rng') →
  Z.of_nat (fleet_cells b) - Z.of_nat (total_hits b) ≤ t' - t.
Proof.
  revert b s rng t. induction fuel as [|fuel IH]; intros b s rng t; [done|].
  destruct (get_next_shot_returns s rng) as (p & r & Hshot).
  rewrite (clear_board_step fuel b s rng r t p Hshot).
  destruct (receive_shot_counts b p) as [Hcells Hhits].
  destruct (Board.are_all_ships_sunk (Board.receive_shot b p).2) eqn:Hsunk.
  - intros [= <- <- <- <-]. apply sunk_counts in Hsunk. lia.
  - intros Hrun. apply IH in Hrun. lia.
Qed.

(** X19: the game loop of the benchmark ends.  On a board whose ships lie
    inside the grid and share no cell, whose hit sets follow the shots, and
    whose recorded positions are the shot history of the strategy, the loop
    reaches its [break] with every ship sunk after at most as many turns as
    the strategy has available positions (one turn if it has none), and
    after at least as many turns as ship cells were not yet hit. *)
Theorem clear_board_terminates (fuel : nat) (b : Board.t) (s : Strategy.t)
    (rng : Random.t) (t : Z) :
  valid_fleet b → tracked b → synced b s →
  (length (Strategy.get_available_positions s) < fuel)%nat →
  ∃ t' b' s' rng',
    Benchmark.clear_board fuel b s rng t = Some (t', b', s', rng') ∧
    Board.are_all_ships_sunk b' = true ∧
    t' ≤ t + Z.max 1 (Z.of_nat (length (Strategy.get_available_positions s))) ∧
    t + 1 ≤ t' ∧
    Z.of_nat (fleet_cells b) - Z.of_nat (total_hits b) ≤ t' - t.
Proof.
  intros Hv Htr Hsync Hfuel.
  destruct (clear_board_finishes fuel b s rng t Hv Htr Hsync Hfuel)
    as (t' & b' & s' & rng' & Hrun & Hsunk & Hlo & Hhi).
  exists t', b', s', rng'. split_and!; try done.
  by eapply clear_board_at_least.
Qed.

Lemma fresh_fleet_cells (tys : list ShipType) (b : Board.t) :
  fresh_fleet tys (Board.ships b) →
  total_hits b = 0%nat ∧
  fleet_cells b = sum_list_with (λ ty, Z.to_nat (ShipType_value ty)) tys ∧
  ∀ s, s ∈ Board.ships b → Ship.hit_positions s = ∅.
Proof.
  unfold total_hits, fleet_cells.
  induction 1 as [|ty s tys l (o & start & ->) _ IH].
  - split_and!; try done. intros s Hs. by apply elem_of_nil in Hs.
  - destruct IH as (IH1 & IH2 & IH3). simpl. rewrite IH1, IH2.
    split_and!; try done.
    intros s Hs. apply elem_of_cons in Hs as [->|Hs]; [done|by apply IH3].
Qed.

(** X20: one game of the benchmark always ends.  On the 10x10 board of
    [benchmark_strategy], for every run of the random source, the random
    placement returns, and the loop reaches its [break] with every ship
    sunk, after at least one and at most 100 turns; when the placement
    succeeded, after at least 17 turns, the number of cells of the fleet. *)
Theorem benchmark_game_terminates (fuel : nat) (strategy : Strategy.t)
    (rng : Random.t) :
  Strategy.board_size strategy = 10 →
  (100 < fuel)%nat →
  ∃ ok b0 rng0 t b s rng',
    Board.random_placement (Board.init 10) rng = Some (ok, b0, rng0) ∧
    Benchmark.benchmark_game fuel strategy rng = Some (t, b, s, rng') ∧
    Board.are_all_ships_sunk b = true ∧
    1 ≤ t ≤ 100 ∧
    (ok = true → 17 ≤ t).
Proof.
  intros Hsize Hfuel. unfold Benchmark.benchmark_game.
  destruct (Board.random_placement (Board.init 10) rng)
    as [[[ok b0] rng0]|] eqn:Hplace.
  2:{ exfalso.
      destruct (place_all_is_Some standard_fleet (Board.mk 10 [] ∅) rng)
        as [r Hr]; [simpl; lia|].
      change (Board.place_all standard_fleet (Board.mk 10 [] ∅) rng = None)
        in Hplace.
      congruence. }
  apply random_placement_outcome in Hplace as Hout.
  destruct Hout as (Hs0 & Hsh0 & Hv0 & Hf0 & Hlen0).
  destruct (fresh_fleet_cells _ _ Hf0) as (Hhits & Hcells & Hfresh).
  assert (Hav : length (Strategy.get_available_positions (Strategy.reset strategy))
                = 100%nat).
  { rewrite get_available_positions_filter. simpl.
    rewrite filter_all by (intros q _; apply not_elem_of_nil).
    by rewrite length_all_cells, Hsize. }
  destruct (clear_board_finishes fuel b0 (Strategy.reset strategy) rng0 0)
    as (t & b & s & rng' & Hrun & Hsunk & Hbound).
  - done.
  - by apply tracked_fresh.
  - split; [by rewrite Hs0|].
    intros q. rewrite Hsh0. simpl. rewrite lookup_empty. split.
    + by intros [? ?].
    + by intros ?%elem_of_nil.
  - lia.
  - simpl. exists ok, b0, rng0, t, b, s, rng'. split; [done|]. split; [done|].
    split; [done|]. split; [lia|].
    intros ->. apply clear_board_at_least in Hrun.
    rewrite Hlen0 in Hcells. simpl in Hcells. lia.
Qed.

(** ** Further properties: rendering *)

Lemma cell_text_hidden (b b' : Board.t) (p : Z * Z) :
  Board.shots b = Board.shots b' →
  Board.cell_text b false p = Board.cell_text b' false p.
Proof. intros Hshots. unfold Board.cell_text. by rewrite Hshots. Qed.

Lemma cell_text_shot (b : Board.t) (show_ships : bool) (p : Z * Z) (st : CellState) :
  Board.shots b !! p = Some st →
  Board.cell_text b show_ships p = if bool_decide (st = HIT) then " X" else " O".
Proof. intros Hp. unfold Board.cell_text. by rewrite Hp. Qed.

(** X21: with [show_ships] false the text of [print_board] depends on the
    size of the board and on its shots record only: two boards with the
    same size and shots print the same grid whatever ships they carry.  A
    cell that was shot prints as [X] or [O] whatever the flag. *)
Theorem print_board_hides_ships (b b' : Board.t) :
  Board.size b = Board.size b' →
  Board.shots b = Board.shots b' →
  Board.print_board b false = Board.print_board b' false ∧
  ∀ show_ships p st,
    Board.shots b !! p = Some st →
    Board.cell_text b show_ships p = Board.cell_text b' false p.
Proof.
  intros Hsize Hshots. split.
  - unfold Board.print_board. rewrite Hsize.
    assert (Hrows :
      (λ row, pretty row +:+ " "
              +:+ String.concat ""
                    ((λ col, Board.cell_text b false (row, col))
                       <$> seqZ 0 (Board.size b'))
              +:+ Board.newline) <$> seqZ 0 (Board.size b')
      = (λ row, pretty row +:+ " "
                +:+ String.concat ""
                      ((λ col, Board.cell_text b' false (row, col))
                         <$> seqZ 0 (Board.size b'))
                +:+ Board.newline) <$> seqZ 0 (Board.size b')).
    { apply list_fmap_ext. intros _ row _.
      assert (Hcols :
        (λ col, Board.cell_text b false (row, col)) <$> seqZ 0 (Board.size b')
        = (λ col, Board.cell_text b' false (row, col)) <$> seqZ 0 (Board.size b')).
      { apply list_fmap_ext. intros _ col _. by apply cell_text_hidden. }
      by rewrite Hcols. }
    by rewrite Hrows.
  - intros show_ships p st Hp.
    rewrite (cell_text_shot b show_ships p st Hp).
    rewrite Hshots in Hp. by rewrite (cell_text_shot b' false p st Hp).
Qed.

(** ** The further properties on concrete boards, strategies and games *)

Lemma valid_fleet_destroyer_board : valid_fleet destroyer_board.
Proof.
  split.
  - apply reachable_in_board, reachable_destroyer_board.
  - intros i j s1 s2 Hij Hi Hj.
    apply list_lookup_singleton_Some in Hi as [-> _].
    apply list_lookup_singleton_Some in Hj as [-> _]. done.
Qed.

Lemma tracked_destroyer_board : tracked destroyer_board.
Proof.
  apply tracked_fresh; [|done].
  intros s Hs. by apply list_elem_of_singleton in Hs as ->.
Qed.

Lemma synced_destroyer_board : synced destroyer_board (Strategy.init 10).
Proof.
  split; [done|]. intros q. simpl. rewrite lookup_empty. split.
  - by intros [? ?].
  - by intros ?%elem_of_nil.
Qed.

(** Witness of X1: the second cell of [destroyer]. *)
Lemma get_positions_spec_witness :
  Z.of_nat 1 < Ship.size destroyer ∧
  Ship.get_positions destroyer !! 1%nat = Some (cell_at destroyer (Z.of_nat 1)).
Proof.
  split; [reflexivity|].
  apply (proj2 (proj2 (get_positions_spec destroyer)) 1%nat). reflexivity.
Defined.

(** Witness of X3: [destroyer], not hit yet. *)
Lemma is_sunk_all_cells_hit_witness :
  hits_on_ship destroyer ∧
  hits_on_ship (Ship.register_hit destroyer (0, 1)).2 ∧
  (Ship.is_sunk destroyer = true ↔
   ∀ q, q ∈ Ship.get_positions destroyer → q ∈ Ship.hit_positions destroyer).
Proof.
  assert (Hon : hits_on_ship destroyer).
  { intros p Hp. by apply not_elem_of_empty in Hp. }
  split; [exact Hon|]. apply (is_sunk_all_cells_hit destroyer (0, 1) Hon).
Defined.

(** Witness of X4: the first shot on [destroyer_board]. *)
Lemma get_ship_at_position_spec_witness :
  Board.shots destroyer_board !! (0, 0) = None ∧
  ((Board.receive_shot destroyer_board (0, 0)).1 = HIT ↔
   is_Some (Board.get_ship_at_position destroyer_board (0, 0))).
Proof.
  split; [reflexivity|].
  apply (proj2 (proj2 (get_ship_at_position_spec destroyer_board (0, 0)))).
  reflexivity.
Defined.

(** Witness of X5: a second destroyer, below the first. *)
Lemma place_ship_keeps_valid_fleet_witness :
  valid_fleet destroyer_board ∧
  valid_fleet
    (Board.place_ship destroyer_board (Ship.init DESTROYER HORIZONTAL (1, 0))).2.
Proof.
  split; [apply valid_fleet_destroyer_board|].
  apply (place_ship_keeps_valid_fleet destroyer_board
           (Ship.init DESTROYER HORIZONTAL (1, 0))).
  apply valid_fleet_destroyer_board.
Defined.

(** Witness of X6: the placement of [fleet_board]. *)
Lemma random_placement_success_witness :
  Board.random_placement (Board.init 10) rng0
    = Some (true, fleet_board, Random.mk (Random.tape rng0) 15) ∧
  fresh_fleet standard_fleet (Board.ships fleet_board) ∧
  valid_fleet fleet_board ∧
  Board.size fleet_board = Board.size (Board.init 10) ∧
  Board.shots fleet_board = Board.shots (Board.init 10).
Proof.
  split; [vm_compute; reflexivity|].
  apply (random_placement_success (Board.init 10) rng0 fleet_board
           (Random.mk (Random.tape rng0) 15)).
  vm_compute. reflexivity.
Defined.

(** Witness of X7: the failed placement on a 5x5 board. *)
Lemma random_placement_failure_witness :
  Board.random_placement (Board.init 5) zero_rng
    = Some (false, carrier_only_board, Random.mk (Random.tape zero_rng) 303) ∧
  (length (Board.ships carrier_only_board) < 5)%nat ∧
  fresh_fleet (take (length (Board.ships carrier_only_board)) standard_fleet)
              (Board.ships carrier_only_board) ∧
  valid_fleet carrier_only_board ∧
  Board.size carrier_only_board = Board.size (Board.init 5) ∧
  Board.shots carrier_only_board = Board.shots (Board.init 5).
Proof.
  split; [vm_compute; reflexivity|].
  apply (random_placement_failure (Board.init 5) zero_rng carrier_only_board
           (Random.mk (Random.tape zero_rng) 303)).
  vm_compute. reflexivity.
Defined.

(** Witness of X9: a hit on [destroyer_board], two more shots, the same
    shot again. *)
Lemma receive_shot_permanent_witness :
  (5, 5) ≠ (0, 0) ∧
  (Board.receive_shot
     (shoot_all (Board.receive_shot destroyer_board (0, 0)).2 [(0, 1); (5, 5)])
     (0, 0)).1
    = (Board.receive_shot destroyer_board (0, 0)).1 ∧
  Board.shots (Board.receive_shot destroyer_board (0, 0)).2 !! (5, 5)
    = Board.shots destroyer_board !! (5, 5).
Proof.
  split; [discriminate|].
  destruct (receive_shot_permanent destroyer_board (0, 0) (5, 5) [(0, 1); (5, 5)])
    as (_ & Hreplay & Hother & _).
  split; [exact Hreplay|]. apply Hother. discriminate.
Defined.

(** Witness of X10: a miss on [destroyer_board]. *)
Lemma receive_shot_hit_or_miss_witness :
  reachable destroyer_board ∧
  ((Board.receive_shot destroyer_board (5, 5)).1 = HIT ∨
   (Board.receive_shot destroyer_board (5, 5)).1 = MISS).
Proof.
  split; [apply reachable_destroyer_board|].
  apply (receive_shot_hit_or_miss destroyer_board (5, 5)).
  apply reachable_destroyer_board.
Defined.

(** Witness of X11: a hit on [destroyer_board]. *)
Lemma receive_shot_keeps_tracked_witness :
  pairwise_disjoint (Board.ships destroyer_board) ∧
  tracked destroyer_board ∧
  tracked (Board.receive_shot destroyer_board (0, 0)).2 ∧
  pairwise_disjoint (Board.ships (Board.receive_shot destroyer_board (0, 0)).2).
Proof.
  split; [apply valid_fleet_destroyer_board|].
  split; [apply tracked_destroyer_board|].
  apply (receive_shot_keeps_tracked destroyer_board (0, 0)).
  - apply valid_fleet_destroyer_board.
  - apply tracked_destroyer_board.
Defined.

(** Witness of X12: [destroyer_board] before any shot. *)
Lemma all_sunk_iff_all_cells_shot_witness :
  tracked destroyer_board ∧
  (Board.are_all_ships_sunk destroyer_board = true ↔
   ∀ s, s ∈ Board.ships destroyer_board →
     ∀ q, q ∈ Ship.get_positions s →
          is_Some (Board.shots destroyer_board !! q)).
Proof.
  split; [apply tracked_destroyer_board|].
  apply (all_sunk_iff_all_cells_shot destroyer_board).
  apply tracked_destroyer_board.
Defined.

(** Witness of X14: the first result registered by a new 10x10 strategy. *)
Lemma register_result_available_witness :
  (0, 0) ∈ Strategy.get_available_positions (Strategy.init 10) ∧
  length (Strategy.get_available_positions (Strategy.init 10))
  = S (length (Strategy.get_available_positions
                 (Strategy.register_result (Strategy.init 10) (0, 0) MISS))).
Proof.
  assert (Hav : (0, 0) ∈ Strategy.get_available_positions (Strategy.init 10)).
  { apply elem_of_get_available_positions. split.
    - unfold in_board. simpl. lia.
    - apply not_elem_of_nil. }
  split; [exact Hav|].
  apply (proj2 (proj2 (register_result_available (Strategy.init 10) (0, 0) MISS))).
  exact Hav.
Defined.

(** Witness of X15: a shot on the terminal game [player_won] and a shot on
    [destroyer_game]. *)
Lemma player_shoot_frame_witness :
  (Game.game_over player_won = true ∧
   Game.player_shoot player_won (0, 0) = (UNKNOWN, player_won)) ∧
  (Game.game_over destroyer_game = false ∧
   (Game.player_shoot destroyer_game (0, 0)).1
     = (Board.receive_shot (Game.ai_board destroyer_game) (0, 0)).1).
Proof.
  split.
  - split; [reflexivity|].
    apply (player_shoot_frame player_won (0, 0)). reflexivity.
  - split; [reflexivity|].
    apply (player_shoot_frame destroyer_game (0, 0)). reflexivity.
Defined.

(** Witness of X16: the two turns of [destroyer_game]. *)
Lemma winner_iff_game_over_witness :
  coherent destroyer_game ∧ coherent one_shot_left ∧ coherent player_won.
Proof.
  destruct winner_iff_game_over as (_ & _ & _ & Hturn & _).
  assert (H0 : coherent destroyer_game) by reflexivity.
  assert (H1 : coherent one_shot_left).
  { exact (Hturn _ _ _ _ _ _ H0 destroyer_game_first_turn). }
  split; [exact H0|]. split; [exact H1|].
  exact (Hturn _ _ _ _ _ _ H1 one_shot_left_last_turn).
Defined.

(** Witness of X17: the first turn of [destroyer_game]. *)
Lemma ai_never_repeats_witness :
  history_ok (Game.ai_strategy destroyer_game) ∧
  history_ok (Game.ai_strategy one_shot_left).
Proof.
  destruct ai_never_repeats as (Hreset & _ & _ & Hturn).
  assert (H0 : history_ok (Game.ai_strategy destroyer_game)).
  { exact (Hreset (Strategy.init 10)). }
  split; [exact H0|].
  exact (Hturn _ _ _ _ _ _ H0 destroyer_game_first_turn).
Defined.


(** Witness of X19: the loop on [destroyer_board] with a new strategy. *)
Lemma clear_board_terminates_witness :
  valid_fleet destroyer_board ∧
  tracked destroyer_board ∧
  synced destroyer_board (Strategy.init 10) ∧
  ∃ t' b' s' rng',
    Benchmark.clear_board 101 destroyer_board (Strategy.init 10) rng0 0
      = Some (t', b', s', rng') ∧
    Board.are_all_ships_sunk b' = true ∧
    2 ≤ t' ≤ 100.
Proof.
  split; [apply valid_fleet_destroyer_board|].
  split; [apply tracked_destroyer_board|].
  split; [apply synced_destroyer_board|].
  destruct (clear_board_terminates 101 destroyer_board (Strategy.init 10) rng0 0)
    as (t' & b' & s' & rng' & Hrun & Hsunk & Hhi & Hlo & Hcells).
  - apply valid_fleet_destroyer_board.
  - apply tracked_destroyer_board.
  - apply synced_destroyer_board.
  - vm_compute. lia.
  - exists t', b', s', rng'. split; [exact Hrun|]. split; [exact Hsunk|].
    assert (Hlen : length (Strategy.get_available_positions (Strategy.init 10))
                   = 100%nat) by (vm_compute; reflexivity).
    rewrite Hlen in Hhi.
    change (Z.of_nat 2 - Z.of_nat 0 ≤ t' - 0) in Hcells. lia.
Defined.

(** Witness of X20: one benchmark game from [rng0]. *)
Lemma benchmark_game_terminates_witness :
  Strategy.board_size (Strategy.init 10) = 10 ∧
  ∃ t b s rng',
    Benchmark.benchmark_game 101 (Strategy.init 10) rng0 = Some (t, b, s, rng') ∧
    Board.are_all_ships_sunk b = true ∧
    1 ≤ t ≤ 100.
Proof.
  split; [reflexivity|].
  destruct (benchmark_game_terminates 101 (Strategy.init 10) rng0)
    as (ok & b0 & r0 & t & b & s & rng' & _ & Hrun & Hsunk & Hbound & _).
  - reflexivity.
  - lia.
  - exists t, b, s, rng'. split; [exact Hrun|]. split; [exact Hsunk|exact Hbound].
Defined.

(** Witness of X21: an empty 2x2 board and one with a destroyer. *)
Lemma print_board_hides_ships_witness :
  Board.size (Board.init 2) = Board.size (Board.mk 2 [destroyer] ∅) ∧
  Board.shots (Board.init 2) = Board.shots (Board.mk 2 [destroyer] ∅) ∧
  Board.print_board (Board.init 2) false
    = Board.print_board (Board.mk 2 [destroyer] ∅) false.
Proof.
  split; [reflexivity|]. split; [reflexivity|].
  apply (print_board_hides_ships (Board.init 2) (Board.mk 2 [destroyer] ∅));
    reflexivity.
Defined.

(** Witness of X8: a 4x4 board. *)
Lemma random_placement_raises_iff_witness :
  Board.size (Board.init 4) < 5 ∧
  Board.random_placement (Board.init 4) rng0 = None.
Proof.
  split; [reflexivity|].
  apply (proj2 (random_placement_raises_iff (Board.init 4) rng0)). reflexivity.
Defined.

(** Witness of X13: a cell of the 10x10 board after [reset]. *)
Lemma reset_makes_all_available_witness :
  in_board (Strategy.board_size (Strategy.init 10)) (3, 3) ∧
  (3, 3) ∈ all_cells (Strategy.board_size (Strategy.init 10)).
Proof.
  assert (Hin : in_board (Strategy.board_size (Strategy.init 10)) (3, 3)).
  { unfold in_board. simpl. lia. }
  split; [exact Hin|].
  destruct (reset_makes_all_available (Strategy.init 10))
    as (_ & _ & _ & _ & _ & _ & Hcells).
  apply Hcells. exact Hin.
Defined.
